(** * LP-MAB controller: exponential-weights bandit and its socket loop

    Shallow embedding of the Python controller of the LP-MAB / ns-3
    integration note (class [LP_MAB], [handle_client_connection], [main]),
    of the ns-3 client functions that talk to it, and of ns-3's
    [TagBuffer].

    Conventions of the embedding.
    - The class [LP_MAB] is embedded twice. The first embedding reads
      numpy [float64] scalars as real numbers ([R], with [exp] of the
      standard library): it is the exact arithmetic the code approximates,
      and it carries the structural statements (which entries a call
      touches, what it raises, what the socket loop sends) and the numeric
      ones that are stated with explicit bounds. The second, [Binary64],
      is the same code over IEEE binary64 (the primitive floats), with
      numpy's summation order and with [np.exp] a parameter; it carries
      what depends on overflow, NaN and rounding.
    - a one-dimensional numpy array is a list; an index is a Python
      integer ([Z]) resolved the way numpy does it, negative indices
      counting from the end.
    - a Python method is a computation [M S A := S -> outcome A * S]: it
      returns or raises, and in both cases hands back the object as the
      statements executed so far left it.
    - the random generator is an explicit stream of uniform draws.
    - the bytes of the connection are strings of bytes; the text they
      decode to is a list of code points. *)

From Stdlib Require Import String Ascii.
From Stdlib Require DecimalString DecimalPos.
From Stdlib Require Import Floats.
From Stdlib Require Import Reals Lra Lia Psatz ZArith NArith Bool List.
Import ListNotations.

Local Open Scope Z_scope.
Local Open Scope R_scope.

(** ** Exceptions and the state-and-exception monad *)

(** [UnicodeDecodeError] is a subclass of [ValueError] in Python. *)
Inductive exn : Type :=
| IndexError
| ValueError
| UnicodeDecodeError
| ZeroDivisionError
| ConnectionResetError.

Inductive outcome (A : Type) : Type :=
| Return (a : A)
| Raise (e : exn).

Arguments Return {A} a.
Arguments Raise {A} e.

Module PyMonad.

Definition M (S A : Type) : Type := S -> outcome A * S.

Definition ret {S A} (a : A) : M S A := fun s => (Return a, s).

Definition bind {S A B} (c : M S A) (k : A -> M S B) : M S B :=
  fun s =>
    match c s with
    | (Return a, s') => k a s'
    | (Raise e, s') => (Raise e, s')
    end.

Definition get {S} : M S S := fun s => (Return s, s).

Definition put {S} (s : S) : M S unit := fun _ => (Return tt, s).

Definition raise {S A} (e : exn) : M S A := fun s => (Raise e, s).

(** A pure fallible computation run inside a method. *)
Definition lift {S A} (o : outcome A) : M S A := fun s => (o, s).

Declare Scope py_scope.
Delimit Scope py_scope with py.

Notation "x <- c ;; k" := (bind c (fun x => k))
  (at level 61, c at next level, right associativity) : py_scope.
Notation "c ;; k" := (bind c (fun _ => k))
  (at level 61, right associativity) : py_scope.

End PyMonad.

Import PyMonad.
Local Open Scope py_scope.

(** ** numpy arrays as lists *)

Definition np_ones (n : nat) : list R := repeat 1 n.

Definition np_zeros (n : nat) : list R := repeat 0 n.

Definition np_sum (a : list R) : R := fold_right Rplus 0 a.

(** [a[i] = v] for an index already resolved. *)
Fixpoint set_nth (i : nat) (v : R) (a : list R) : list R :=
  match a, i with
  | [], _ => []
  | _ :: t, O => v :: t
  | h :: t, S j => h :: set_nth j v t
  end.

(** Index resolution of numpy: [0 <= i < n] is itself, [-n <= i < 0]
    counts from the end, anything else is an [IndexError]. *)
Definition py_index (n : nat) (i : Z) : outcome nat :=
  if ((0 <=? i) && (i <? Z.of_nat n))%Z then Return (Z.to_nat i)
  else if ((- Z.of_nat n <=? i) && (i <? 0))%Z
       then Return (Z.to_nat (Z.of_nat n + i))
       else Raise IndexError.

(** ** class LP_MAB *)

Record LP_MAB : Type := mkLP_MAB {
  num_actions : Z;
  gamma : R;
  weights : list R;
  probabilities : list R;
  action_counts : list R
}.

Definition set_weights (w : list R) (self : LP_MAB) : LP_MAB :=
  mkLP_MAB (num_actions self) (gamma self) w (probabilities self)
           (action_counts self).

Definition set_probabilities (p : list R) (self : LP_MAB) : LP_MAB :=
  mkLP_MAB (num_actions self) (gamma self) (weights self) p
           (action_counts self).

Definition set_action_counts (c : list R) (self : LP_MAB) : LP_MAB :=
  mkLP_MAB (num_actions self) (gamma self) (weights self)
           (probabilities self) c.

(** [__init__]: [np.ones] and [np.zeros] refuse a negative size. *)
Definition init (n : Z) (g : R) : outcome LP_MAB :=
  if (n <? 0)%Z then Raise ValueError
  else
    Return
      {| num_actions := n;
         gamma := g;
         weights := np_ones (Z.to_nat n);
         probabilities := map (fun x => x / IZR n) (np_ones (Z.to_nat n));
         action_counts := np_zeros (Z.to_nat n) |}.

(** [reward / self.probabilities[action]], the index being resolved. *)
Definition estimated_reward (self : LP_MAB) (i : nat) (reward : R) : R :=
  reward / nth i (probabilities self) 0.

(** The factor applied to the weight of the chosen arm. *)
Definition weight_factor (self : LP_MAB) (i : nat) (reward : R) : R :=
  exp (gamma self * estimated_reward self i reward / IZR (num_actions self)).

(** [(1 - gamma) * (weights / np.sum(weights)) + gamma / num_actions] *)
Definition mix (g : R) (n : Z) (w : list R) : list R :=
  map (fun x => (1 - g) * (x / np_sum w) + g / IZR n) w.

(** [p /= np.sum(p)] *)
Definition normalize (p : list R) : list R :=
  map (fun x => x / np_sum p) p.

(** [update], statement by statement. *)
Definition update (action : Z) (reward : R) : M LP_MAB unit :=
  (* self.action_counts[action] += 1 *)
  self <- get ;;
  i <- lift (py_index (length (action_counts self)) action) ;;
  put (set_action_counts
         (set_nth i (nth i (action_counts self) 0 + 1) (action_counts self))
         self) ;;
  (* estimated_reward = reward / self.probabilities[action] *)
  self <- get ;;
  j <- lift (py_index (length (probabilities self)) action) ;;
  let est := estimated_reward self j reward in
  (* self.weights[action] *= np.exp(gamma * estimated_reward / num_actions) *)
  k <- lift (py_index (length (weights self)) action) ;;
  put (set_weights
         (set_nth k
            (nth k (weights self) 0
             * exp (gamma self * est / IZR (num_actions self)))
            (weights self))
         self) ;;
  (* self.probabilities = (1 - gamma) * (weights / sum) + gamma / num_actions *)
  self <- get ;;
  (if (num_actions self =? 0)%Z then raise ZeroDivisionError else ret tt) ;;
  put (set_probabilities
         (mix (gamma self) (num_actions self) (weights self)) self) ;;
  (* self.probabilities /= np.sum(self.probabilities) *)
  self <- get ;;
  put (set_probabilities (normalize (probabilities self)) self).

(** ** select_action and numpy's random choice *)

(** [p.cumsum()] *)
Fixpoint cumsum_from (acc : R) (p : list R) : list R :=
  match p with
  | [] => []
  | x :: t => (acc + x) :: cumsum_from (acc + x) t
  end.

Definition np_cumsum (p : list R) : list R := cumsum_from 0 p.

(** [a.searchsorted(v, side='right')] on an ascending array: the first
    position whose entry exceeds [v]. *)
Fixpoint searchsorted_right (a : list R) (v : R) : nat :=
  match a with
  | [] => O
  | x :: t => if Rlt_dec v x then O else S (searchsorted_right t v)
  end.

Fixpoint any_negative (p : list R) : bool :=
  match p with
  | [] => false
  | x :: t => if Rlt_dec x 0 then true else any_negative t
  end.

(** Tolerance of the sum check, [sqrt(finfo(float64).eps)] = 2^-26. *)
Definition choice_atol : R := / 2 ^ 26.

(** [np.random.choice(a, p=p)] with one uniform draw [u] of [[0,1)]:
    the argument checks, then the inverse of the normalised cumulative
    distribution. *)
Definition np_random_choice (a : Z) (p : list R) (u : R) : outcome Z :=
  if (a <=? 0)%Z then Raise ValueError
  else if negb (Z.of_nat (length p) =? a)%Z then Raise ValueError
  else if any_negative p then Raise ValueError
  else if Rlt_dec choice_atol (Rabs (np_sum p - 1)) then Raise ValueError
  else
    let cdf := np_cumsum p in
    let cdf := map (fun c => c / last cdf 0) cdf in
    Return (Z.of_nat (searchsorted_right cdf u)).

Definition select_action (u : R) : M LP_MAB Z :=
  self <- get ;;
  action <- lift (np_random_choice (num_actions self) (probabilities self) u) ;;
  ret action.

(** ** class LP_MAB in binary64

    The same class over IEEE binary64, every operation rounded as numpy
    rounds it. [np.exp] is a parameter [np_exp]: its last bit depends on
    the platform's library, and what every library guarantees of it is
    [exp_law]. The reward is the [float] the Python integer converts
    to. *)

Module Binary64.

Local Open Scope float_scope.

(** [float(n)] for a Python integer, rounded to nearest. *)
Definition float_of_int (n : Z) : float :=
  SF2Prim (binary_normalize prec emax n 0 false).

(** *** [np.sum]: numpy's pairwise summation

    The order of the additions is numpy's ([pairwise_sum] of its inner
    loops). Recent versions start the short loop at [-0.0] instead of
    [0.0]; this changes the sign of a sum of negative zeros and nothing
    else. *)

(** [for (...) res += a[i]] *)
Definition add_all (res : float) (a : list float) : float :=
  fold_left PrimFloat.add a res.

(** [r[j] += a[i + j]] for [j] in [0 .. 7]. *)
Fixpoint add_each (r a : list float) : list float :=
  match r, a with
  | x :: r', y :: a' => (x + y) :: add_each r' a'
  | _, _ => r
  end.

(** The loop [for (i = 8; i < n - n % 8; i += 8)] over the blocks of
    eight that follow the first; what it leaves is shorter than eight. *)
Fixpoint add_blocks (blocks : nat) (r a : list float)
  : list float * list float :=
  match blocks with
  | O => (r, a)
  | S k => add_blocks k (add_each r (firstn 8 a)) (skipn 8 a)
  end.

(** From eight to 128 elements: eight accumulators, added as a tree,
    then the rest one by one. *)
Definition unrolled_sum (a : list float) : float :=
  let (r, rest) :=
    add_blocks (length a / 8 - 1)%nat (firstn 8 a) (skipn 8 a) in
  match r with
  | [r0; r1; r2; r3; r4; r5; r6; r7] =>
      add_all (((r0 + r1) + (r2 + r3)) + ((r4 + r5) + (r6 + r7))) rest
  | _ => add_all 0 a
  end.

(** [pairwise_sum]: fewer than eight elements are added from the left,
    more than 128 are split in two halves (the first a multiple of
    eight); [depth] bounds the splitting. *)
Fixpoint pairwise_sum (depth : nat) (a : list float) : float :=
  let n := length a in
  if (n <? 8)%nat then add_all 0 a
  else if (n <=? 128)%nat then unrolled_sum a
  else
    match depth with
    | O => unrolled_sum a
    | S d =>
        let n2 := (n / 2 - (n / 2) mod 8)%nat in
        pairwise_sum d (firstn n2 a) + pairwise_sum d (skipn n2 a)
    end.

Definition np_sum (a : list float) : float := pairwise_sum (length a) a.

(** *** The class *)

Fixpoint set_nth (i : nat) (v : float) (a : list float) : list float :=
  match a, i with
  | [], _ => []
  | _ :: t, O => v :: t
  | h :: t, S j => h :: set_nth j v t
  end.

Record LP_MAB : Type := mkLP_MAB {
  num_actions : Z;
  gamma : float;
  weights : list float;
  probabilities : list float;
  action_counts : list float
}.

Definition set_weights (w : list float) (self : LP_MAB) : LP_MAB :=
  mkLP_MAB (num_actions self) (gamma self) w (probabilities self)
           (action_counts self).

Definition set_probabilities (p : list float) (self : LP_MAB) : LP_MAB :=
  mkLP_MAB (num_actions self) (gamma self) (weights self) p
           (action_counts self).

Definition set_action_counts (c : list float) (self : LP_MAB) : LP_MAB :=
  mkLP_MAB (num_actions self) (gamma self) (weights self)
           (probabilities self) c.

Definition init (n : Z) (g : float) : outcome LP_MAB :=
  if (n <? 0)%Z then Raise ValueError
  else
    Return
      {| num_actions := n;
         gamma := g;
         weights := repeat 1 (Z.to_nat n);
         probabilities :=
           map (fun x => x / float_of_int n) (repeat 1 (Z.to_nat n));
         action_counts := repeat 0 (Z.to_nat n) |}.

(** The argument of [np.exp] in [update]:
    [self.gamma * estimated_reward / self.num_actions] with
    [estimated_reward = reward / self.probabilities[action]]. *)
Definition exponent (self : LP_MAB) (i : nat) (reward : float) : float :=
  gamma self * (reward / nth i (probabilities self) nan)
  / float_of_int (num_actions self).

(** [(1 - gamma) * (weights / np.sum(weights)) + gamma / num_actions] *)
Definition mix (g : float) (n : Z) (w : list float) : list float :=
  map (fun x => (1 - g) * (x / np_sum w) + g / float_of_int n) w.

(** [p /= np.sum(p)] *)
Definition normalize (p : list float) : list float :=
  map (fun x => x / np_sum p) p.

(** [update], statement by statement. *)
Definition update (np_exp : float -> float) (action : Z) (reward : float)
  : M LP_MAB unit :=
  (* self.action_counts[action] += 1 *)
  self <- get ;;
  i <- lift (py_index (length (action_counts self)) action) ;;
  put (set_action_counts
         (set_nth i (nth i (action_counts self) nan + 1) (action_counts self))
         self) ;;
  (* estimated_reward = reward / self.probabilities[action] *)
  self <- get ;;
  j <- lift (py_index (length (probabilities self)) action) ;;
  (* self.weights[action] *= np.exp(gamma * estimated_reward / num_actions) *)
  k <- lift (py_index (length (weights self)) action) ;;
  put (set_weights
         (set_nth k
            (nth k (weights self) nan * np_exp (exponent self j reward))
            (weights self))
         self) ;;
  (* self.probabilities = (1 - gamma) * (weights / sum) + gamma / num_actions *)
  self <- get ;;
  (if (num_actions self =? 0)%Z then raise ZeroDivisionError else ret tt) ;;
  put (set_probabilities
         (mix (gamma self) (num_actions self) (weights self)) self) ;;
  (* self.probabilities /= np.sum(self.probabilities) *)
  self <- get ;;
  put (set_probabilities (normalize (probabilities self)) self).

(** *** What is known of [np.exp] *)

(** The largest argument whose exponential is finite, 709.782712893384:
    above it [exp] overflows. *)
Definition exp_overflow : float := 0x1.62e42fefa39efp+9.

(** What every implementation of [exp] returns: one at zero, infinity
    when the result overflows. *)
Definition exp_law (np_exp : float -> float) : Prop :=
  np_exp 0 = 1 /\
  forall x, (exp_overflow <? x) = true -> np_exp x = infinity.

(** The values of [exp] that [exp_law] fixes; elsewhere it answers
    [nan], not being the exponential there. It stands for [np.exp] in
    examples that call it at those arguments only. *)
Definition exp_special (x : float) : float :=
  if exp_overflow <? x then infinity
  else if x =? 0 then 1
  else nan.

(** *** States *)

(** The three arrays have [num_actions] entries. *)
Definition well_formed (s : LP_MAB) : Prop :=
  (0 <= num_actions s)%Z /\
  length (weights s) = Z.to_nat (num_actions s) /\
  length (probabilities s) = Z.to_nat (num_actions s) /\
  length (action_counts s) = Z.to_nat (num_actions s).

(** Neither an infinity nor a NaN. *)
Definition is_finite (x : float) : bool :=
  match Prim2SF x with
  | S754_zero _ | S754_finite _ _ _ => true
  | _ => false
  end.

(** What [update] leaves behind when the index resolves to arm [i]. *)
Definition updated (np_exp : float -> float) (i : nat) (reward : float)
    (s : LP_MAB) : LP_MAB :=
  let w := set_nth i (nth i (weights s) nan * np_exp (exponent s i reward))
                   (weights s) in
  {| num_actions := num_actions s;
     gamma := gamma s;
     weights := w;
     probabilities := normalize (mix (gamma s) (num_actions s) w);
     action_counts :=
       set_nth i (nth i (action_counts s) nan + 1) (action_counts s) |}.



(** [LP_MAB(3, gamma=1.0)] as [__init__] leaves it. *)
Definition explore3 : LP_MAB :=
  {| num_actions := 3;
     gamma := 1;
     weights := repeat 1 3;
     probabilities := repeat (1 / 3) 3;
     action_counts := repeat 0 3 |}.

(** [LP_MAB(7, gamma=1.0)] as [__init__] leaves it. *)
Definition explore7 : LP_MAB :=
  {| num_actions := 7;
     gamma := 1;
     weights := repeat 1 7;
     probabilities := repeat (1 / 7) 7;
     action_counts := repeat 0 7 |}.


End Binary64.

(** ** The wire format

    [client_socket.recv(1024).decode()] decodes the bytes as UTF-8, and
    [int] is CPython's: on text that is all ASCII it is
    [PyLong_FromString]; other text first has its Unicode white space and
    decimal digits replaced by ASCII ones. *)

Module Wire.

Local Open Scope char_scope.

(** *** [bytes.decode()]: strict UTF-8 *)

Definition between (lo hi n : N) : bool := ((lo <=? n) && (n <=? hi))%N.

(** The second byte a three-byte sequence allows after the lead [b0]:
    no overlong form, no surrogate. *)
Definition second_of_three (b0 b1 : N) : bool :=
  if (b0 =? 224)%N then between 160 191 b1
  else if (b0 =? 237)%N then between 128 159 b1
  else between 128 191 b1.

(** The second byte of a four-byte sequence: no overlong form, nothing
    above U+10FFFF. *)
Definition second_of_four (b0 b1 : N) : bool :=
  if (b0 =? 240)%N then between 144 191 b1
  else if (b0 =? 244)%N then between 128 143 b1
  else between 128 191 b1.

(** The code points of a byte string, [None] standing for the
    [UnicodeDecodeError] of an ill-formed sequence. *)
Fixpoint decode (data : string) : option (list N) :=
  match data with
  | EmptyString => Some []
  | String c0 t0 =>
      let b0 := N_of_ascii c0 in
      if (b0 <? 128)%N then option_map (cons b0) (decode t0)
      else
        match t0 with
        | EmptyString => None
        | String c1 t1 =>
            let b1 := N_of_ascii c1 in
            if between 194 223 b0 then
              if between 128 191 b1
              then option_map (cons ((b0 - 192) * 64 + (b1 - 128))%N)
                              (decode t1)
              else None
            else
              match t1 with
              | EmptyString => None
              | String c2 t2 =>
                  let b2 := N_of_ascii c2 in
                  if between 224 239 b0 then
                    if second_of_three b0 b1 && between 128 191 b2
                    then option_map
                           (cons ((b0 - 224) * 4096 + (b1 - 128) * 64
                                  + (b2 - 128))%N)
                           (decode t2)
                    else None
                  else
                    match t2 with
                    | EmptyString => None
                    | String c3 t3 =>
                        let b3 := N_of_ascii c3 in
                        if between 240 244 b0 && second_of_four b0 b1
                           && between 128 191 b2 && between 128 191 b3
                        then option_map
                               (cons ((b0 - 240) * 262144 + (b1 - 128) * 4096
                                      + (b2 - 128) * 64 + (b3 - 128))%N)
                               (decode t3)
                        else None
                    end
              end
        end
  end.


(** *** [int(text)] *)

(** [Py_ISSPACE]: the white space of the C locale, which is what
    [PyLong_FromString] skips around the digits. *)
Definition Py_ISSPACE (c : ascii) : bool :=
  let n := nat_of_ascii c in
  ((9 <=? n) && (n <=? 13) || (n =? 32))%nat.

(** The value of an ASCII decimal digit. *)
Definition digit_of (c : ascii) : option Z :=
  let n := nat_of_ascii c in
  if ((48 <=? n) && (n <=? 57))%nat then Some (Z.of_nat (n - 48)) else None.

Fixpoint lstrip (s : string) : string :=
  match s with
  | String c t => if Py_ISSPACE c then lstrip t else s
  | EmptyString => EmptyString
  end.

Fixpoint rstrip (s : string) : string :=
  match s with
  | EmptyString => EmptyString
  | String c t =>
      match rstrip t with
      | EmptyString => if Py_ISSPACE c then EmptyString
                       else String c EmptyString
      | t' => String c t'
      end
  end.

(** Decimal digits, single underscores allowed between two digits. *)
Fixpoint digits_value (acc : Z) (after_digit : bool) (s : string)
  : option Z :=
  match s with
  | EmptyString => if after_digit then Some acc else None
  | String c t =>
      match digit_of c with
      | Some d => digits_value (10 * acc + d)%Z true t
      | None =>
          if (Ascii.eqb c "_" && after_digit)%bool
          then digits_value acc false t
          else None
      end
  end.

(** [PyLong_FromString(s, base=10)] on ASCII text: [None] stands for
    its [ValueError]. *)
Definition PyLong_FromString (s : string) : option Z :=
  match rstrip (lstrip s) with
  | String "-" t => option_map Z.opp (digits_value 0 false t)
  | String "+" t => digits_value 0 false t
  | t => digits_value 0 false t
  end.

(** [Py_UNICODE_ISSPACE]. *)
Definition Py_UNICODE_ISSPACE (c : N) : bool :=
  between 9 13 c || between 28 32 c
  || existsb (N.eqb c)
       [0x85; 0xA0; 0x1680; 0x2028; 0x2029; 0x202F; 0x205F; 0x3000]%N
  || between 0x2000 0x200A c.

(** The code points of the digit zero of every decimal script (Unicode
    14.0, the table of CPython 3.11); the nine that follow each are its
    digits one to nine. *)
Definition decimal_zeros : list N :=
  [0x30; 0x660; 0x6F0; 0x7C0; 0x966; 0x9E6; 0xA66; 0xAE6; 0xB66; 0xBE6;
   0xC66; 0xCE6; 0xD66; 0xDE6; 0xE50; 0xED0; 0xF20; 0x1040;
   0x1090; 0x17E0; 0x1810; 0x1946; 0x19D0; 0x1A80; 0x1A90; 0x1B50;
   0x1BB0; 0x1C40; 0x1C50; 0xA620; 0xA8D0; 0xA900; 0xA9D0; 0xA9F0;
   0xAA50; 0xABF0; 0xFF10; 0x104A0; 0x10D30; 0x11066; 0x110F0;
   0x11136; 0x111D0; 0x112F0; 0x11450; 0x114D0; 0x11650; 0x116C0;
   0x11730; 0x118E0; 0x11950; 0x11C50; 0x11D50; 0x11DA0; 0x16A60;
   0x16AC0; 0x16B50; 0x1D7CE; 0x1D7D8; 0x1D7E2; 0x1D7EC; 0x1D7F6;
   0x1E140; 0x1E2F0; 0x1E950; 0x1FBF0]%N.

(** [Py_UNICODE_TODECIMAL]. *)
Definition Py_UNICODE_TODECIMAL (c : N) : option N :=
  match find (fun z => between z (z + 9) c) decimal_zeros with
  | Some z => Some (c - z)%N
  | None => None
  end.

(** What [_PyUnicode_TransformDecimalAndSpaceToASCII] makes of one
    character of a string that is not all ASCII. *)
Definition to_ascii (c : N) : N :=
  if (c <? 127)%N then c
  else if Py_UNICODE_ISSPACE c then 32%N
  else match Py_UNICODE_TODECIMAL c with
       | Some d => (48 + d)%N
       | None => 63%N
       end.

Definition is_ascii (text : list N) : bool :=
  forallb (fun c => (c <? 128)%N) text.

Definition TransformDecimalAndSpaceToASCII (text : list N) : string :=
  string_of_list_ascii
    (map ascii_of_N (if is_ascii text then text else map to_ascii text)).

(** [int(text)]. *)
Definition py_int (text : list N) : option Z :=
  PyLong_FromString (TransformDecimalAndSpaceToASCII text).

(** [text.split(sep)] for a one-character separator. *)
Fixpoint split (sep : N) (text : list N) : list (list N) :=
  match text with
  | [] => [[]]
  | c :: t =>
      if (c =? sep)%N then [] :: split sep t
      else
        match split sep t with
        | [] => [[c]]
        | h :: r => (c :: h) :: r
        end
  end.

(** [data = ....decode()] and [action, reward = map(int, data.split(','))]:
    bytes that are not UTF-8 are a [UnicodeDecodeError]; a field that is
    not an integer and a field count other than two are both
    [ValueError]. *)
Definition parse_message (data : string) : outcome (Z * Z) :=
  match decode data with
  | None => Raise UnicodeDecodeError
  | Some text =>
      match map py_int (split 44 text) with
      | [Some action; Some reward] => Return (action, reward)
      | _ => Raise ValueError
      end
  end.

(** [str(n)] *)
Definition str (n : Z) : string :=
  DecimalString.NilZero.string_of_int (Z.to_int n).

End Wire.

(** ** The socket loop *)

(** What one call of [client_socket.recv(1024)] gives: bytes (none when
    the peer has closed), or a transport failure. *)
Inductive recv_result : Type :=
| Data (data : string)
| RecvFail.

(** What the process did to the outside. *)
Inductive io_event : Type :=
| EvSend (data : string)
| EvClose.

Record World : Type := mkWorld {
  lp_mab : LP_MAB;
  tick : nat;
  trace : list io_event
}.

Definition with_lp_mab {A} (c : M LP_MAB A) : M World A :=
  fun w =>
    let (o, s) := c (lp_mab w) in
    (o, mkWorld s (tick w) (trace w)).

(** One uniform draw of the generator [rng]. *)
Definition random_sample (rng : nat -> R) : M World R :=
  fun w => (Return (rng (tick w)), mkWorld (lp_mab w) (S (tick w)) (trace w)).

Definition emit (e : io_event) : M World unit :=
  fun w => (Return tt, mkWorld (lp_mab w) (tick w) (trace w ++ [e])).

(** [handle_client_connection]: the list is what the successive [recv]
    calls of this connection give; after it the peer has closed. [send]
    is taken to succeed; [EvClose] is the [client_socket.close()] after
    the loop, which an exception skips. *)
Fixpoint handle_client_connection (rng : nat -> R)
    (client_socket : list recv_result) : M World unit :=
  match client_socket with
  | [] => emit EvClose
  | RecvFail :: _ => raise ConnectionResetError
  | Data EmptyString :: _ => emit EvClose
  | Data data :: rest =>
      ar <- lift (Wire.parse_message data) ;;
      with_lp_mab (update (fst ar) (IZR (snd ar))) ;;
      u <- random_sample rng ;;
      next_action <- with_lp_mab (select_action u) ;;
      emit (EvSend (Wire.str next_action)) ;;
      handle_client_connection rng rest
  end.

(** The accept loop of [main] over the connections accepted in turn;
    at the end of the list the server is waiting in [accept]. *)
Fixpoint accept_loop (rng : nat -> R)
    (connections : list (list recv_result)) : M World unit :=
  match connections with
  | [] => ret tt
  | client_socket :: rest =>
      handle_client_connection rng client_socket ;;
      accept_loop rng rest
  end.

(** [main]: [LP_MAB(10)] with the default [gamma=0.1], then the accept
    loop ([start_socket_server] is taken to succeed). *)
Definition main (rng : nat -> R) (connections : list (list recv_result))
  : outcome (outcome unit * World) :=
  match init 10 (1 / 10) with
  | Return lp => Return (accept_loop rng connections (mkWorld lp 0 []))
  | Raise e => Raise e
  end.

(** ** States of the policy *)

(** The three arrays have [num_actions] entries. *)
Definition well_formed (s : LP_MAB) : Prop :=
  (0 <= num_actions s)%Z /\
  length (weights s) = Z.to_nat (num_actions s) /\
  length (probabilities s) = Z.to_nat (num_actions s) /\
  length (action_counts s) = Z.to_nat (num_actions s).

(** What [update] leaves behind when the index resolves to arm [i]. *)
Definition updated (i : nat) (reward : R) (s : LP_MAB) : LP_MAB :=
  let w := set_nth i (nth i (weights s) 0 * weight_factor s i reward)
                   (weights s) in
  {| num_actions := num_actions s;
     gamma := gamma s;
     weights := w;
     probabilities := normalize (mix (gamma s) (num_actions s) w);
     action_counts :=
       set_nth i (nth i (action_counts s) 0 + 1) (action_counts s) |}.

(** The states a policy built by [LP_MAB(n, g)] can be in: the state
    [__init__] builds, and the state any call of [update] leaves, whether
    it returned or raised. *)
Inductive reachable (n : Z) (g : R) : LP_MAB -> Prop :=
| reach_init s :
    init n g = Return s -> reachable n g s
| reach_update s action reward o s' :
    reachable n g s ->
    update action reward s = (o, s') ->
    reachable n g s'.


(** [weights[i] *= f] on its own, for a factor given from outside. *)
Definition scale_weight (i : nat) (f : R) (w : list R) : list R :=
  set_nth i (nth i w 0 * f) w.

(** Positive weights; probabilities summing to one, none below the
    exploration floor. *)
Definition policy_inv (s : LP_MAB) : Prop :=
  Forall (fun w => 0 < w) (weights s) /\
  np_sum (probabilities s) = 1 /\
  Forall (fun p => gamma s / IZR (num_actions s) <= p) (probabilities s).

(** [LP_MAB(3, gamma=0.5)] as [__init__] leaves it. *)
Definition policy3 : LP_MAB :=
  {| num_actions := 3;
     gamma := 1 / 2;
     weights := [1; 1; 1];
     probabilities := [1 / 3; 1 / 3; 1 / 3];
     action_counts := [0; 0; 0] |}.

(** [LP_MAB(2, gamma=0.5)] as [__init__] leaves it. *)
Definition policy2 : LP_MAB :=
  {| num_actions := 2;
     gamma := 1 / 2;
     weights := [1; 1];
     probabilities := [1 / 2; 1 / 2];
     action_counts := [0; 0] |}.

(** [LP_MAB(3, gamma=1)] as [__init__] leaves it. *)
Definition policy3_explore : LP_MAB :=
  {| num_actions := 3;
     gamma := 1;
     weights := [1; 1; 1];
     probabilities := [1 / 3; 1 / 3; 1 / 3];
     action_counts := [0; 0; 0] |}.





(** A process that has just built [LP_MAB(3, gamma=0.5)]. *)
Definition world3 : World := mkWorld policy3 0 [].

(** A generator whose draws are all zero. *)
Definition rng_zero : nat -> R := fun _ => 0.

(** What a connection leaves when it is closed: the socket is closed,
    nothing else moves. *)
Definition closed (w : World) : World :=
  mkWorld (lp_mab w) (tick w) (trace w ++ [EvClose]).

(** A [recv] that gave the bytes of a message (not the empty read of a
    closed connection, not a failure). *)
Definition is_message (r : recv_result) : Prop :=
  match r with
  | Data (String _ _) => True
  | _ => False
  end.

(** The terms [x^i / i!] of the exponential series. *)
Definition exp_term (x : R) (i : nat) : R := x ^ i / INR (fact i).

(** ** The ns-3 side of the connection *)

Module Ns3Client.

Local Open Scope char_scope.

(** Conversion to [uint32_t]. *)
Definition to_uint32 (z : Z) : Z := (z mod 2 ^ 32)%Z.

Definition INT_MAX : Z := 2147483647.

Definition INT_MIN : Z := (-2147483648)%Z.

(** [operator<<] for an unsigned integer: its decimal digits. *)
Definition put_unsigned (n : Z) : string :=
  DecimalString.NilZero.string_of_uint (N.to_uint (Z.to_N n)).

(** [SendToPythonServer]: the bytes of the packet,
    [ss << action << "," << reward] for two [uint32_t]. *)
Definition SendToPythonServer (action reward : Z) : string :=
  (put_unsigned (to_uint32 action) ++ ","
   ++ put_unsigned (to_uint32 reward))%string.

(** What [std::stoi] does: a value, or one of its two exceptions. *)
Inductive stoi_result : Type :=
| Value (v : Z)
| invalid_argument
| out_of_range.

(** [isspace] of the C locale. *)
Definition isspace (c : ascii) : bool :=
  let n := nat_of_ascii c in
  ((n =? 32) || (9 <=? n) && (n <=? 13))%nat.

Fixpoint skip_space (s : string) : string :=
  match s with
  | String c t => if isspace c then skip_space t else s
  | EmptyString => EmptyString
  end.

(** The longest prefix of decimal digits, none being a failure. *)
Fixpoint take_digits (acc : Z) (seen : bool) (s : string) : option Z :=
  match s with
  | EmptyString => if seen then Some acc else None
  | String c t =>
      match Wire.digit_of c with
      | Some d => take_digits (10 * acc + d)%Z true t
      | None => if seen then Some acc else None
      end
  end.

(** [std::stoi(s)]: leading white space, an optional sign, digits up to
    the first character that is not one. *)
Definition stoi (s : string) : stoi_result :=
  let body (negative : bool) (t : string) :=
    match take_digits 0 false t with
    | None => invalid_argument
    | Some v =>
        let v := if negative then (- v)%Z else v in
        if ((INT_MIN <=? v) && (v <=? INT_MAX))%Z then Value v
        else out_of_range
    end in
  match skip_space s with
  | String "-" t => body true t
  | String "+" t => body false t
  | t => body false t
  end.

(** One turn of the loop of [ReceiveFromPythonServer]:
    [uint32_t next_action = std::stoi(response)]. *)
Definition next_action_of (response : string) : stoi_result :=
  match stoi response with
  | Value v => Value (to_uint32 v)
  | e => e
  end.

(** [ReceiveFromPythonServer] over the packets [Recv] gives in turn: the
    actions it prints, and the exception that ended it, if any. *)
Fixpoint ReceiveFromPythonServer (packets : list string)
  : list Z * option stoi_result :=
  match packets with
  | [] => ([], None)
  | response :: rest =>
      match next_action_of response with
      | Value next_action =>
          let (printed, e) := ReceiveFromPythonServer rest in
          (next_action :: printed, e)
      | e => ([], Some e)
      end
  end.

End Ns3Client.

(** ** Decimal numerals *)

(** A string of decimal digits only. *)
Fixpoint all_digits (s : string) : Prop :=
  match s with
  | EmptyString => True
  | String c t => (exists d, Wire.digit_of c = Some d) /\ all_digits t
  end.

(** The value of a decimal numeral read from the left. *)
Fixpoint uint_value (acc : Z) (d : Decimal.uint) : Z :=
  match d with
  | Decimal.Nil => acc
  | Decimal.D0 l => uint_value (10 * acc + 0) l
  | Decimal.D1 l => uint_value (10 * acc + 1) l
  | Decimal.D2 l => uint_value (10 * acc + 2) l
  | Decimal.D3 l => uint_value (10 * acc + 3) l
  | Decimal.D4 l => uint_value (10 * acc + 4) l
  | Decimal.D5 l => uint_value (10 * acc + 5) l
  | Decimal.D6 l => uint_value (10 * acc + 6) l
  | Decimal.D7 l => uint_value (10 * acc + 7) l
  | Decimal.D8 l => uint_value (10 * acc + 8) l
  | Decimal.D9 l => uint_value (10 * acc + 9) l
  end.

(** The code points of a string of ASCII bytes. *)
Definition codes (s : string) : list N :=
  map N_of_ascii (list_ascii_of_string s).

(** A string of bytes below 128. *)
Fixpoint all_ascii (s : string) : Prop :=
  match s with
  | EmptyString => True
  | String c t => (N_of_ascii c < 128)%N /\ all_ascii t
  end.

(** ** Traces *)

(** The output [n] arms allow: replies that are the decimal id of an arm,
    and closes. *)
Definition reply_in_range (n : Z) (e : io_event) : Prop :=
  match e with
  | EvSend data => exists action, (0 <= action < n)%Z /\ data = Wire.str action
  | EvClose => True
  end.

(** How many sockets a trace closes. *)
Fixpoint closes (tr : list io_event) : nat :=
  match tr with
  | [] => O
  | EvClose :: t => S (closes t)
  | EvSend _ :: t => closes t
  end.

(** The packets a list of requests [(action, reward)] becomes on the
    connection. *)
Definition requests (ars : list (Z * Z)) : list recv_result :=
  map (fun ar => Data (Ns3Client.SendToPythonServer (fst ar) (snd ar))) ars.

(** * TagBuffer: the byte cursor of the packet tags *)

Module TagBuffer.

(** A [TagBuffer] is two pointers into a byte array: [bytes] is that
    array, [m_current] and [m_end] are the pointers as offsets in it. A
    failed [NS_ASSERT] aborts: the operations return [None]. *)
Record t : Type := mk {
  bytes : list Z;
  m_current : nat;
  m_end : nat
}.

Declare Scope tag_scope.
Delimit Scope tag_scope with tag.

Notation "x <- c ;; k" :=
  (match c with Some x => k | None => None end)
  (at level 61, c at next level, right associativity) : tag_scope.

Local Open Scope tag_scope.
Local Open Scope Z_scope.

(** [a[i] = v] *)
Fixpoint poke (i : nat) (v : Z) (a : list Z) : list Z :=
  match a, i with
  | [], _ => []
  | _ :: r, O => v :: r
  | x :: r, S j => x :: poke j v r
  end.

(** [memcpy(a + i, src, len(src))] *)
Fixpoint store (i : nat) (src : list Z) (a : list Z) : list Z :=
  match src with
  | [] => a
  | x :: r => store (S i) r (poke i x a)
  end.

(** [TagBuffer(start, end)] over an array. *)
Definition TagBuffer (a : list Z) (start end_ : nat) : t := mk a start end_.

(** The argument is converted to [uint8_t]. *)
Definition WriteU8 (v : Z) (b : t) : option t :=
  if (m_current b + 1 <=? m_end b)%nat
  then Some (mk (poke (m_current b) (v mod 2 ^ 8) (bytes b))
                (m_current b + 1) (m_end b))
  else None.

Definition WriteU16 (data : Z) (b : t) : option t :=
  let data := data mod 2 ^ 16 in
  b <- WriteU8 (Z.land (Z.shiftr data 0) 255) b ;;
  WriteU8 (Z.land (Z.shiftr data 8) 255) b.

Definition WriteU32 (data : Z) (b : t) : option t :=
  let data := data mod 2 ^ 32 in
  b <- WriteU8 (Z.land (Z.shiftr data 0) 255) b ;;
  b <- WriteU8 (Z.land (Z.shiftr data 8) 255) b ;;
  b <- WriteU8 (Z.land (Z.shiftr data 16) 255) b ;;
  WriteU8 (Z.land (Z.shiftr data 24) 255) b.

Definition WriteU64 (data : Z) (b : t) : option t :=
  let data := data mod 2 ^ 64 in
  b <- WriteU8 (Z.land (Z.shiftr data 0) 255) b ;;
  b <- WriteU8 (Z.land (Z.shiftr data 8) 255) b ;;
  b <- WriteU8 (Z.land (Z.shiftr data 16) 255) b ;;
  b <- WriteU8 (Z.land (Z.shiftr data 24) 255) b ;;
  b <- WriteU8 (Z.land (Z.shiftr data 32) 255) b ;;
  b <- WriteU8 (Z.land (Z.shiftr data 40) 255) b ;;
  b <- WriteU8 (Z.land (Z.shiftr data 48) 255) b ;;
  WriteU8 (Z.land (Z.shiftr data 56) 255) b.

(** [Write(buffer, size)]: the loop of [WriteU8] over the first [size]
    bytes of [buffer]. *)
Fixpoint Write (buffer : list Z) (size : nat) (b : t) : option t :=
  match size with
  | O => Some b
  | S size' =>
      b <- WriteU8 (hd 0 buffer) b ;;
      Write (tl buffer) size' b
  end.

Definition ReadU8 (b : t) : option (Z * t) :=
  if (m_current b + 1 <=? m_end b)%nat
  then Some (nth (m_current b) (bytes b) 0,
             mk (bytes b) (m_current b + 1) (m_end b))
  else None.

(** [data <<= 8; data |= byte] in an unsigned type of [w] bits. *)
Definition shift_in (w : Z) (data byte : Z) : Z :=
  Z.lor (Z.shiftl data 8 mod 2 ^ w) byte mod 2 ^ w.

Definition ReadU16 (b : t) : option (Z * t) :=
  r0 <- ReadU8 b ;;
  r1 <- ReadU8 (snd r0) ;;
  let data := fst r1 in
  let data := shift_in 16 data (fst r0) in
  Some (data, snd r1).

Definition ReadU32 (b : t) : option (Z * t) :=
  r0 <- ReadU8 b ;;
  r1 <- ReadU8 (snd r0) ;;
  r2 <- ReadU8 (snd r1) ;;
  r3 <- ReadU8 (snd r2) ;;
  let data := fst r3 in
  let data := shift_in 32 data (fst r2) in
  let data := shift_in 32 data (fst r1) in
  let data := shift_in 32 data (fst r0) in
  Some (data, snd r3).

Definition ReadU64 (b : t) : option (Z * t) :=
  r0 <- ReadU8 b ;;
  r1 <- ReadU8 (snd r0) ;;
  r2 <- ReadU8 (snd r1) ;;
  r3 <- ReadU8 (snd r2) ;;
  r4 <- ReadU8 (snd r3) ;;
  r5 <- ReadU8 (snd r4) ;;
  r6 <- ReadU8 (snd r5) ;;
  r7 <- ReadU8 (snd r6) ;;
  let data := fst r7 in
  let data := shift_in 64 data (fst r6) in
  let data := shift_in 64 data (fst r5) in
  let data := shift_in 64 data (fst r4) in
  let data := shift_in 64 data (fst r3) in
  let data := shift_in 64 data (fst r2) in
  let data := shift_in 64 data (fst r1) in
  let data := shift_in 64 data (fst r0) in
  Some (data, snd r7).

(** [Read(buffer, size)]: the bytes copied out, the cursor moved, and
    only then the assertion. *)
Definition Read (size : nat) (b : t) : option (list Z * t) :=
  let buffer := firstn size (skipn (m_current b) (bytes b)) in
  let b := mk (bytes b) (m_current b + size) (m_end b) in
  if (m_current b <=? m_end b)%nat then Some (buffer, b) else None.

(** [TrimAtEnd(trim)]: the comparison is one of addresses. *)
Definition TrimAtEnd (trim : nat) (b : t) : option t :=
  if (Z.of_nat (m_current b) <=? Z.of_nat (m_end b) - Z.of_nat trim)
  then Some (mk (bytes b) (m_current b) (m_end b - trim))
  else None.

(** [CopyFrom(o)]: the bytes [o] has left, copied at the cursor. *)
Definition CopyFrom (o : t) (b : t) : option t :=
  if negb (m_current o <=? m_end o)%nat then None
  else if negb (m_current b <=? m_end b)%nat then None
  else
    let size := (m_end o - m_current o)%nat in
    if negb (size <=? m_end b - m_current b)%nat then None
    else
      Some (mk (store (m_current b)
                      (firstn size (skipn (m_current o) (bytes o)))
                      (bytes b))
               (m_current b + size) (m_end b)).

End TagBuffer.

(** The [n] low bytes of [v], least significant first. *)
Definition le_bytes (n : nat) (v : Z) : list Z :=
  map (fun k => Z.land (Z.shiftr v (8 * Z.of_nat k)) 255) (seq 0 n).

(** A cursor inside its array. *)
Definition tag_buffer_valid (b : TagBuffer.t) : Prop :=
  (TagBuffer.m_current b <= TagBuffer.m_end b)%nat /\
  (TagBuffer.m_end b <= length (TagBuffer.bytes b))%nat.

(** The reader of what a writer wrote: a [TagBuffer] over the writer's
    array, from where the writer started. *)
Definition reader_of (start b' : TagBuffer.t) : TagBuffer.t :=
  TagBuffer.TagBuffer (TagBuffer.bytes b') (TagBuffer.m_current start)
                      (TagBuffer.m_end b').

(** A write of the [n] low bytes of [v], least significant first, at the
    cursor of [b], with result [r]. *)
Definition writes_little_endian (n : nat) (v : Z) (b : TagBuffer.t)
    (r : option TagBuffer.t) : Prop :=
  match r with
  | None => (TagBuffer.m_end b < TagBuffer.m_current b + n)%nat
  | Some b' =>
      (TagBuffer.m_current b + n <= TagBuffer.m_end b)%nat /\
      TagBuffer.m_current b' = (TagBuffer.m_current b + n)%nat /\
      TagBuffer.m_end b' = TagBuffer.m_end b /\
      length (TagBuffer.bytes b') = length (TagBuffer.bytes b) /\
      (forall k, (k < n)%nat ->
         nth (TagBuffer.m_current b + k) (TagBuffer.bytes b') 0%Z
         = ((v / 2 ^ (8 * Z.of_nat k)) mod 256)%Z) /\
      (forall j, (j < TagBuffer.m_current b
                  \/ TagBuffer.m_current b + n <= j)%nat ->
         nth j (TagBuffer.bytes b') 0%Z = nth j (TagBuffer.bytes b) 0%Z)
  end.

(** Byte [k] of [v]. *)
Definition byte_at (v k : Z) : Z := ((v / 2 ^ (8 * k)) mod 256)%Z.

(** * Properties *)

(** ** Indexing *)

Lemma py_index_in_range n i :
  (0 <= i < Z.of_nat n)%Z -> py_index n i = Return (Z.to_nat i).
Proof.
  intros H. unfold py_index.
  replace (0 <=? i)%Z with true by (symmetry; apply Z.leb_le; lia).
  replace (i <? Z.of_nat n)%Z with true by (symmetry; apply Z.ltb_lt; lia).
  reflexivity.
Qed.

Lemma py_index_negative n i :
  (- Z.of_nat n <= i < 0)%Z ->
  py_index n i = Return (Z.to_nat (Z.of_nat n + i)).
Proof.
  intros H. unfold py_index.
  replace (0 <=? i)%Z with false by (symmetry; apply Z.leb_gt; lia).
  replace (- Z.of_nat n <=? i)%Z with true by (symmetry; apply Z.leb_le; lia).
  replace (i <? 0)%Z with true by (symmetry; apply Z.ltb_lt; lia).
  reflexivity.
Qed.

Lemma py_index_out_of_range n i :
  (Z.of_nat n <= i \/ i < - Z.of_nat n)%Z -> py_index n i = Raise IndexError.
Proof.
  intros H. unfold py_index.
  destruct (Z.leb_spec 0 i), (Z.ltb_spec i (Z.of_nat n)); simpl; try lia;
    destruct (Z.leb_spec (- Z.of_nat n) i), (Z.ltb_spec i 0); simpl;
    try lia; reflexivity.
Qed.

Lemma py_index_bound n i k : py_index n i = Return k -> (k < n)%nat.
Proof.
  unfold py_index.
  destruct (Z.leb_spec 0 i), (Z.ltb_spec i (Z.of_nat n)); simpl.
  1: intros [= <-]; lia.
  all: destruct (Z.leb_spec (- Z.of_nat n) i), (Z.ltb_spec i 0); simpl;
    intros [= <-]; lia.
Qed.

Lemma py_index_raises n i e : py_index n i = Raise e -> e = IndexError.
Proof.
  unfold py_index.
  destruct ((0 <=? i) && (i <? Z.of_nat n))%Z; [discriminate |].
  destruct ((- Z.of_nat n <=? i) && (i <? 0))%Z; [discriminate |].
  now intros [= <-].
Qed.

(** ** Arrays *)

Lemma set_nth_length i v a : length (set_nth i v a) = length a.
Proof.
  revert i; induction a as [| h t IH]; intros [| j]; simpl; auto.
Qed.

Lemma nth_set_nth_same i v a d :
  (i < length a)%nat -> nth i (set_nth i v a) d = v.
Proof.
  revert i; induction a as [| h t IH]; intros [| j]; simpl; intros H;
    try lia; auto.
  apply IH; lia.
Qed.

Lemma nth_set_nth_other i j v a d :
  i <> j -> nth j (set_nth i v a) d = nth j a d.
Proof.
  revert i j; induction a as [| h t IH]; intros [| i] [| j] H; simpl;
    try reflexivity; try congruence.
  apply IH; congruence.
Qed.

Lemma set_nth_overflow i v a : (length a <= i)%nat -> set_nth i v a = a.
Proof.
  revert i; induction a as [| h t IH]; intros [| j]; simpl; intros H;
    try lia; auto.
  rewrite IH by lia. reflexivity.
Qed.

Lemma set_nth_Forall (P : R -> Prop) i v a :
  P v -> Forall P a -> Forall P (set_nth i v a).
Proof.
  intros Hv Ha; revert i; induction Ha as [| h t Hh Ht IH]; intros [| j];
    simpl; constructor; auto.
Qed.

Lemma Forall_nth_R (P : R -> Prop) a i d :
  Forall P a -> (i < length a)%nat -> P (nth i a d).
Proof.
  intros Ha; revert i; induction Ha as [| h t Hh Ht IH]; intros [| j] H;
    simpl in *; try lia; auto.
  apply IH; lia.
Qed.

Lemma np_sum_repeat c n : np_sum (repeat c n) = INR n * c.
Proof.
  induction n as [| n IH].
  - simpl; lra.
  - rewrite S_INR. simpl repeat. unfold np_sum in *. simpl. rewrite IH. lra.
Qed.

Lemma np_sum_affine c d W a :
  np_sum (map (fun x => c * (x / W) + d) a)
  = c * (np_sum a / W) + INR (length a) * d.
Proof.
  induction a as [| h t IH].
  - simpl. unfold Rdiv. lra.
  - change (length (h :: t)) with (S (length t)). rewrite S_INR.
    unfold np_sum in *. simpl. rewrite IH. unfold Rdiv. lra.
Qed.

Lemma np_sum_positive a :
  a <> [] -> Forall (fun x => 0 < x) a -> 0 < np_sum a.
Proof.
  intros Hne Ha. destruct Ha as [| h t Hh Ht]; [congruence |].
  clear Hne. unfold np_sum; simpl.
  assert (0 <= fold_right Rplus 0 t).
  { induction Ht as [| x l Hx Hl IH]; simpl; lra. }
  lra.
Qed.

Lemma map_id_ext (f : R -> R) a : (forall x, f x = x) -> map f a = a.
Proof.
  intros H; induction a as [| h t IH]; simpl; [| rewrite H, IH]; reflexivity.
Qed.

Lemma normalize_unit p : np_sum p = 1 -> normalize p = p.
Proof.
  intros H. unfold normalize. rewrite H. apply map_id_ext. intros x. lra.
Qed.

Lemma INR_to_nat n : (0 <= n)%Z -> INR (Z.to_nat n) = IZR n.
Proof. intros H. rewrite INR_IZR_INZ, Z2Nat.id; auto. Qed.

Lemma mix_length g n w : length (mix g n w) = length w.
Proof. unfold mix. apply length_map. Qed.

Lemma np_sum_mix g n w :
  (0 < n)%Z -> length w = Z.to_nat n -> np_sum w <> 0 ->
  np_sum (mix g n w) = 1.
Proof.
  intros Hn Hlen HW. unfold mix. rewrite np_sum_affine, Hlen, INR_to_nat by lia.
  assert (IZR n <> 0) by (apply not_0_IZR; lia).
  field. split; assumption.
Qed.

(** ** What one call of update does *)

Section UpdateRuns.

Variable s : LP_MAB.
Hypothesis Hwf : well_formed s.

Lemma update_returns action reward i :
  py_index (Z.to_nat (num_actions s)) action = Return i ->
  update action reward s = (Return tt, updated i reward s).
Proof.
  intros Hi. destruct Hwf as (Hn & Hw & Hp & Hc).
  pose proof (py_index_bound _ _ _ Hi) as Hlt.
  unfold update, bind, get, put, lift, ret, raise. simpl.
  rewrite Hc, Hi, Hp, Hi, Hw, Hi. simpl.
  destruct (Z.eqb_spec (num_actions s) 0) as [E | _].
  { rewrite E in Hlt. simpl in Hlt. lia. }
  reflexivity.
Qed.

Lemma update_raises action reward e :
  py_index (Z.to_nat (num_actions s)) action = Raise e ->
  update action reward s = (Raise e, s).
Proof.
  intros Hi. destruct Hwf as (Hn & Hw & Hp & Hc).
  unfold update, bind, get, put, lift. rewrite Hc, Hi. reflexivity.
Qed.

Lemma update_cases action reward o s' :
  update action reward s = (o, s') ->
  (exists i, py_index (Z.to_nat (num_actions s)) action = Return i /\ o = Return tt
             /\ s' = updated i reward s)
  \/ (o = Raise IndexError /\ s' = s).
Proof.
  intros H. destruct (py_index (Z.to_nat (num_actions s)) action) as [i | e] eqn:Hi.
  - rewrite (update_returns _ reward _ Hi) in H. injection H as <- <-.
    left; exists i; auto.
  - rewrite (update_raises _ reward _ Hi) in H. injection H as <- <-.
    right. rewrite (py_index_raises _ _ _ Hi). auto.
Qed.

End UpdateRuns.

Lemma updated_well_formed i reward s :
  well_formed s -> well_formed (updated i reward s).
Proof.
  intros (Hn & Hw & Hp & Hc). unfold well_formed, updated; simpl.
  unfold normalize. rewrite length_map, mix_length, !set_nth_length. auto.
Qed.

Lemma init_well_formed n g s : init n g = Return s -> well_formed s.
Proof.
  unfold init. destruct (Z.ltb_spec n 0); [discriminate |].
  intros [= <-]. unfold well_formed, np_ones, np_zeros; simpl.
  rewrite length_map, !repeat_length. auto.
Qed.

Lemma reachable_well_formed n g s : reachable n g s -> well_formed s.
Proof.
  induction 1 as [s H | s a r o s' _ IH H].
  - eapply init_well_formed; eauto.
  - destruct (update_cases s IH _ _ _ _ H) as [(i & _ & _ & ->) | (_ & ->)];
      auto using updated_well_formed.
Qed.

Lemma reachable_parameters n g s :
  reachable n g s -> num_actions s = n /\ gamma s = g.
Proof.
  induction 1 as [s H | s a r o s' Hr IH H].
  - unfold init in H. destruct (n <? 0)%Z; [discriminate |].
    injection H as <-. auto.
  - pose proof (reachable_well_formed _ _ _ Hr) as Hwf.
    destruct (update_cases s Hwf _ _ _ _ H) as [(i & _ & _ & ->) | (_ & ->)];
      auto.
Qed.

(** ** The policy in binary64 *)

Section Binary64Runs.

Variable np_exp : float -> float.
Variable s : Binary64.LP_MAB.
Hypothesis Hwf : Binary64.well_formed s.

Lemma update64_returns action reward i :
  py_index (Z.to_nat (Binary64.num_actions s)) action = Return i ->
  Binary64.update np_exp action reward s
  = (Return tt, Binary64.updated np_exp i reward s).
Proof.
  intros Hi. destruct Hwf as (Hn & Hw & Hp & Hc).
  assert (Hlt : (i < Z.to_nat (Binary64.num_actions s))%nat)
    by (eapply py_index_bound; eauto).
  unfold Binary64.update, bind, get, put, lift, ret, raise. simpl.
  rewrite Hc, Hi, Hp, Hi, Hw, Hi. simpl.
  destruct (Z.eqb_spec (Binary64.num_actions s) 0) as [E | _].
  { rewrite E in Hlt. simpl in Hlt. lia. }
  reflexivity.
Qed.

Lemma update64_cases action reward o s' :
  Binary64.update np_exp action reward s = (o, s') ->
  (exists i, py_index (Z.to_nat (Binary64.num_actions s)) action = Return i
             /\ o = Return tt
             /\ s' = Binary64.updated np_exp i reward s)
  \/ (o = Raise IndexError /\ s' = s).
Proof.
  intros H.
  destruct (py_index (Z.to_nat (Binary64.num_actions s)) action)
    as [i | e] eqn:Hi.
  - rewrite (update64_returns _ reward _ Hi) in H. injection H as <- <-.
    left; exists i; auto.
  - right. destruct Hwf as (Hn & Hw & Hp & Hc).
    unfold Binary64.update, bind, get, put, lift in H.
    rewrite Hc, Hi in H. injection H as <- <-.
    rewrite (py_index_raises _ _ _ Hi). auto.
Qed.

End Binary64Runs.



(** ** The invariant of the exponential-weights state *)

Lemma Forall_repeat_R (P : R -> Prop) c k : P c -> Forall P (repeat c k).
Proof. intros H; induction k; simpl; constructor; auto. Qed.

Lemma init_inv n g s :
  (0 < n)%Z -> g <= 1 -> init n g = Return s -> policy_inv s.
Proof.
  intros Hn Hg. unfold init. destruct (Z.ltb_spec n 0); [lia |].
  intros [= <-]. unfold policy_inv, np_ones; simpl.
  assert (Hpos : 0 < IZR n) by (apply IZR_lt; lia).
  rewrite map_repeat. repeat split.
  - apply Forall_repeat_R; lra.
  - rewrite np_sum_repeat, INR_to_nat by lia. field. lra.
  - apply Forall_repeat_R. unfold Rdiv.
    apply Rmult_le_compat_r; [| lra].
    left; apply Rinv_0_lt_compat; lra.
Qed.

Lemma updated_inv i reward s :
  well_formed s -> (0 < num_actions s)%Z -> gamma s <= 1 ->
  policy_inv s -> policy_inv (updated i reward s).
Proof.
  intros (_ & Hw & _ & _) Hn Hg (Hpos & _ & _).
  set (w := set_nth i (nth i (weights s) 0 * weight_factor s i reward)
                    (weights s)).
  assert (Hlen : length w = Z.to_nat (num_actions s))
    by (unfold w; rewrite set_nth_length; exact Hw).
  assert (Hwpos : Forall (fun x => 0 < x) w).
  { unfold w. destruct (Nat.lt_ge_cases i (length (weights s))) as [Hi | Hi].
    - apply set_nth_Forall; auto. apply Rmult_lt_0_compat.
      + apply (Forall_nth_R _ _ _ _ Hpos Hi).
      + apply exp_pos.
    - rewrite set_nth_overflow by lia. exact Hpos. }
  assert (HW : 0 < np_sum w).
  { apply np_sum_positive; auto. intros E. rewrite E in Hlen. simpl in Hlen. lia. }
  assert (Hsum : np_sum (mix (gamma s) (num_actions s) w) = 1)
    by (apply np_sum_mix; auto; lra).
  unfold policy_inv, updated; fold w; simpl.
  rewrite (normalize_unit _ Hsum). repeat split; auto.
  unfold mix. apply Forall_forall. intros p Hp.
  apply in_map_iff in Hp as (x & <- & Hx).
  assert (0 < x) by (eapply Forall_forall in Hwpos; eauto).
  assert (0 < x / np_sum w) by (apply Rdiv_lt_0_compat; auto).
  nra.
Qed.

Lemma reachable_inv n g s :
  (0 < n)%Z -> g <= 1 -> reachable n g s -> policy_inv s.
Proof.
  intros Hn Hg. induction 1 as [s H | s a r o s' Hr IH H].
  - eapply init_inv; eauto.
  - pose proof (reachable_well_formed _ _ _ Hr) as Hwf.
    destruct (reachable_parameters _ _ _ Hr) as [En Eg].
    destruct (update_cases s Hwf _ _ _ _ H) as [(i & _ & _ & ->) | (_ & ->)];
      auto.
    apply updated_inv; auto; [rewrite En | rewrite Eg]; assumption.
Qed.

Lemma init_policy3 : init 3 (1 / 2) = Return policy3.
Proof. reflexivity. Qed.

Lemma init_policy2 : init 2 (1 / 2) = Return policy2.
Proof. reflexivity. Qed.

Lemma policy3_well_formed : well_formed policy3.
Proof. exact (init_well_formed _ _ _ init_policy3). Qed.

Lemma policy2_well_formed : well_formed policy2.
Proof. exact (init_well_formed _ _ _ init_policy2). Qed.

Lemma update_policy3_arm0 :
  update 0 1 policy3 = (Return tt, updated 0 1 policy3).
Proof. apply update_returns; [exact policy3_well_formed | reflexivity]. Qed.

Lemma reachable_policy3_arm0 : reachable 3 (1 / 2) (updated 0 1 policy3).
Proof.
  eapply reach_update; [apply reach_init, init_policy3 |].
  exact update_policy3_arm0.
Qed.

(** ** C3: one call of update changes one weight *)



(** ** C4: the divisor of the importance-weighted estimate *)






(** ** C6: pure exploration *)

Lemma explore3_well_formed : Binary64.well_formed Binary64.explore3.
Proof. unfold Binary64.well_formed. simpl. repeat split; lia. Qed.

Lemma explore7_well_formed : Binary64.well_formed Binary64.explore7.
Proof. unfold Binary64.well_formed. simpl. repeat split; lia. Qed.

(** C6, as stated, fails in the arithmetic the code runs in: with
    [gamma = 1] on three arms, [update(0, 710)] calls [np.exp] at 710;
    the weight overflows, [0 * (inf / inf)] is NaN, and the probabilities
    are NaN, not [1/3]. *)
Lemma C6_counterexample :
  Binary64.init 3 1 = Return Binary64.explore3 /\
  (Binary64.exp_overflow
   <? Binary64.exponent Binary64.explore3 0 710)%float = true /\
  forall np_exp, Binary64.exp_law np_exp ->
    exists s',
      Binary64.update np_exp 0 710 Binary64.explore3 = (Return tt, s') /\
      Binary64.weights s' = [infinity; 1; 1]%float /\
      Binary64.probabilities s' = [nan; nan; nan] /\
      Forall (fun p => (p =? 1 / 3)%float = false)
             (Binary64.probabilities s').
Proof.
  split; [reflexivity |]. split; [reflexivity |].
  intros np_exp [_ Hov].
  assert (E : np_exp (Binary64.exponent Binary64.explore3 0 710) = infinity)
    by (apply Hov; reflexivity).
  exists (Binary64.updated np_exp 0 710 Binary64.explore3).
  split; [apply update64_returns;
          [exact explore3_well_formed | reflexivity] |].
  assert (Ep : Binary64.probabilities
                 (Binary64.updated np_exp 0 710 Binary64.explore3)
               = [nan; nan; nan]).
  { unfold Binary64.updated. rewrite E. reflexivity. }
  split; [unfold Binary64.updated; rewrite E; reflexivity |].
  split; [exact Ep |]. rewrite Ep.
  repeat (apply Forall_cons; [reflexivity |]). apply Forall_nil.
Qed.

(** Zero times a finite number, added to a positive number, is that
    number. *)
Lemma zero_mul_add q c :
  Binary64.is_finite q = true -> (0 <? c)%float = true ->
  (0 * q + c)%float = c.
Proof.
  unfold Binary64.is_finite. intros Hq Hc. apply Prim2SF_inj.
  rewrite FloatAxioms.ltb_spec in Hc.
  rewrite FloatAxioms.add_spec, FloatAxioms.mul_spec.
  change (Prim2SF 0) with (S754_zero false) in *.
  destruct (Prim2SF q) as [sq | sq | | sq mq eq]; try discriminate;
    destruct (Prim2SF c) as [sc | sc | | sc mc ec]; try discriminate;
    reflexivity.
Qed.

Lemma mix64_gamma_one n w :
  (0 <? 1 / Binary64.float_of_int n)%float = true ->
  Forall (fun x => Binary64.is_finite (x / Binary64.np_sum w) = true) w ->
  Binary64.mix 1 n w
  = repeat (1 / Binary64.float_of_int n)%float (length w).
Proof.
  intros Hc. unfold Binary64.mix.
  generalize (Binary64.np_sum w) as W. intros W Hw.
  induction Hw as [| x t Hx _ IH]; [reflexivity |].
  cbn [map length repeat]. rewrite IH. f_equal.
  change (1 - 1)%float with 0%float. apply zero_mul_add; assumption.
Qed.

Lemma normalize64_repeat c k :
  Binary64.normalize (repeat c k)
  = repeat (c / Binary64.np_sum (repeat c k))%float k.
Proof.
  unfold Binary64.normalize.
  exact (map_repeat c k (fun x => (x / Binary64.np_sum (repeat c k))%float)).
Qed.

Lemma set_nth64_length i v a :
  length (Binary64.set_nth i v a) = length a.
Proof.
  revert i; induction a as [| h t IH]; intros [| j]; simpl; auto.
Qed.

(** C6, amended. With [gamma = 1.0] (so that [1 - gamma] is zero) on
    [A] arms: [__init__] leaves every probability at [1.0 / A]; and a call
    of [update] that returns, whatever the action, the reward and the
    value of [np.exp], leaves all probabilities equal to one another,
    namely to [(1.0 / A) / S] with [S] the sum of [A] copies of
    [1.0 / A], provided every quotient [weights[i] / sum(weights)] of the
    recomputation is finite (no weight has overflowed and the weights do
    not sum to zero). *)
Theorem C6_gamma_one_uniform np_exp s action reward s' :
  Binary64.well_formed s ->
  Binary64.gamma s = 1%float ->
  (0 <? 1 / Binary64.float_of_int (Binary64.num_actions s))%float = true ->
  Binary64.update np_exp action reward s = (Return tt, s') ->
  Forall (fun w =>
            Binary64.is_finite (w / Binary64.np_sum (Binary64.weights s'))
            = true)
         (Binary64.weights s') ->
  let A := Z.to_nat (Binary64.num_actions s) in
  let uniform := (1 / Binary64.float_of_int (Binary64.num_actions s))%float in
  (forall s0,
      Binary64.init (Binary64.num_actions s) 1 = Return s0 ->
      Binary64.probabilities s0 = repeat uniform A) /\
  Binary64.probabilities s'
  = repeat (uniform / Binary64.np_sum (repeat uniform A))%float A.
Proof.
  intros Hwf Hg Hc Hup Hfin A uniform. split.
  - intros s0. unfold Binary64.init.
    destruct (Binary64.num_actions s <? 0)%Z; [discriminate |].
    intros [= <-]. simpl. exact (map_repeat _ _ _).
  - destruct (update64_cases np_exp s Hwf _ _ _ _ Hup)
      as [(i & Hi & _ & ->) | (Ho & _)]; [| discriminate].
    destruct Hwf as (_ & Hw & _ & _).
    unfold Binary64.updated in *. cbn [Binary64.probabilities Binary64.weights] in *.
    rewrite Hg, mix64_gamma_one by assumption.
    rewrite set_nth64_length, Hw. apply normalize64_repeat.
Qed.

Lemma C6_witness :
  (forall s0,
      Binary64.init 7 1 = Return s0 ->
      Binary64.probabilities s0 = repeat (1 / 7)%float 7) /\
  Binary64.probabilities
    (Binary64.updated Binary64.exp_special 2 0 Binary64.explore7)
  = repeat (1 / 7 / Binary64.np_sum (repeat (1 / 7) 7))%float 7.
Proof.
  apply (C6_gamma_one_uniform Binary64.exp_special Binary64.explore7 2 0
           (Binary64.updated Binary64.exp_special 2 0 Binary64.explore7)).
  - exact explore7_well_formed.
  - reflexivity.
  - reflexivity.
  - apply update64_returns; [exact explore7_well_formed | reflexivity].
  - repeat (apply Forall_cons; [reflexivity |]). apply Forall_nil.
Defined.

(** ** C7: action ids outside the range *)

(** C7, as stated, fails: with three arms, [update(-1, 1)] returns
    normally and has changed the state (the last arm is updated). *)
Lemma C7_counterexample :
  ~ (0 <= -1 < num_actions policy3)%Z /\
  fst (update (-1) 1 policy3) = Return tt /\
  snd (update (-1) 1 policy3) <> policy3 /\
  nth 2 (action_counts (snd (update (-1) 1 policy3))) 0 = 1.
Proof.
  assert (E : update (-1) 1 policy3 = (Return tt, updated 2 1 policy3))
    by (apply update_returns; [exact policy3_well_formed | reflexivity]).
  rewrite E. simpl. repeat split.
  - lia.
  - intros H. apply (f_equal action_counts) in H. simpl in H.
    injection H as H. lra.
  - lra.
Qed.

(** C7, amended. On a state whose arrays have [A] entries: an action
    [a >= A] or [a < -A] makes [update] raise [IndexError] with the
    state exactly as it was; an action [-A <= a < 0] is not rejected, it
    is the update of arm [A + a]. *)
Theorem C7_update_index_errors s action reward :
  well_formed s ->
  ((num_actions s <= action \/ action < - num_actions s)%Z ->
   update action reward s = (Raise IndexError, s)) /\
  ((- num_actions s <= action < 0)%Z ->
   update action reward s
   = (Return tt, updated (Z.to_nat (num_actions s + action)) reward s) /\
   update action reward s = update (num_actions s + action) reward s).
Proof.
  intros Hwf. pose proof Hwf as (Hn & _). split.
  - intros Ha. apply update_raises; auto.
    apply py_index_out_of_range. rewrite Z2Nat.id by lia. exact Ha.
  - intros Ha. rewrite !(update_returns s Hwf _ reward
                            (Z.to_nat (num_actions s + action))); auto.
    + apply py_index_in_range. rewrite Z2Nat.id by lia. lia.
    + rewrite <- (Z2Nat.id (num_actions s)) at 2 by lia.
      apply py_index_negative. rewrite Z2Nat.id by lia. exact Ha.
Qed.

Lemma C7_witness :
  update 3 1 policy3 = (Raise IndexError, policy3) /\
  update (-4) 1 policy3 = (Raise IndexError, policy3) /\
  update (-1) 1 policy3 = (Return tt, updated 2 1 policy3) /\
  update (-1) 1 policy3 = update 2 1 policy3.
Proof.
  split; [| split].
  - apply (proj1 (C7_update_index_errors policy3 3 1 policy3_well_formed)).
    change (num_actions policy3) with 3%Z; lia.
  - apply (proj1 (C7_update_index_errors policy3 (-4) 1 policy3_well_formed)).
    change (num_actions policy3) with 3%Z; lia.
  - apply (proj2 (C7_update_index_errors policy3 (-1) 1 policy3_well_formed)).
    change (num_actions policy3) with 3%Z; lia.
Defined.

(** ** Bounds on the exponential *)

Section ExpSeries.

Variable x : R.
Hypothesis Hx : 0 <= x <= 1.

Lemma term_decreasing : Un_decreasing (exp_term x).
Proof.
  intros k. unfold exp_term.
  assert (Hk : 0 < INR (fact k)) by apply INR_fact_lt_0.
  assert (HSk : 0 < INR (S k)) by (apply lt_0_INR; lia).
  assert (Hp : 0 <= x ^ k) by (apply pow_le; lra).
  replace (INR (fact (S k))) with (INR (S k) * INR (fact k))
    by (rewrite <- mult_INR; reflexivity).
  simpl pow.
  assert (E : x * x ^ k / (INR (S k) * INR (fact k))
              = x ^ k / INR (fact k) * (x / INR (S k)))
    by (field; lra).
  rewrite E.
  assert (H1 : 0 <= x ^ k / INR (fact k))
    by (apply Rmult_le_pos; [| left; apply Rinv_0_lt_compat]; lra).
  assert (H2 : x / INR (S k) <= 1).
  { apply Rmult_le_reg_r with (INR (S k)); [lra |].
    unfold Rdiv. rewrite Rmult_assoc, Rinv_l by lra.
    rewrite S_INR in *. pose proof (pos_INR k). lra. }
  nra.
Qed.

Lemma exp_opp_series :
  Un_cv (fun N => sum_f_R0 (tg_alt (exp_term x)) N) (exp (- x)).
Proof.
  unfold exp. destruct (exist_exp (- x)) as (l & Hl). simpl.
  intros eps Heps. destruct (Hl eps Heps) as (N & HN).
  exists N. intros k Hk.
  replace (sum_f_R0 (tg_alt (exp_term x)) k)
    with (sum_f_R0 (fun i => / INR (fact i) * (- x) ^ i) k);
    [apply HN, Hk |].
  apply sum_eq. intros i _. unfold tg_alt, exp_term.
  replace (- x) with (-1 * x) by ring.
  rewrite Rpow_mult_distr. unfold Rdiv. ring.
Qed.

Lemma exp_opp_between N :
  sum_f_R0 (tg_alt (exp_term x)) (S (2 * N)) <= exp (- x)
  <= sum_f_R0 (tg_alt (exp_term x)) (2 * N).
Proof.
  apply alternated_series_ineq.
  - exact term_decreasing.
  - exact (cv_speed_pow_fact x).
  - exact exp_opp_series.
Qed.

End ExpSeries.

Lemma INR_fact_value k v : Z.of_nat (fact k) = v -> INR (fact k) = IZR v.
Proof. intros <-. apply INR_IZR_INZ. Qed.

Lemma exp_opp_half_bounds : 0.606530 < exp (- (1 / 2)) < 0.606533.
Proof.
  assert (Hx : 0 <= 1 / 2 <= 1) by lra.
  pose proof (exp_opp_between (1 / 2) Hx 3) as [Hlo Hhi].
  cbn [sum_f_R0 Nat.mul Nat.add] in Hlo, Hhi. unfold tg_alt, exp_term in Hlo, Hhi.
  rewrite (INR_fact_value 0 1), (INR_fact_value 1 1), (INR_fact_value 2 2),
    (INR_fact_value 3 6), (INR_fact_value 4 24), (INR_fact_value 5 120),
    (INR_fact_value 6 720) in Hlo, Hhi by reflexivity.
  rewrite (INR_fact_value 7 5040) in Hlo by reflexivity.
  simpl pow in Hlo, Hhi.
  split; lra.
Qed.

Lemma exp_half_bounds : 1.64871 < exp (1 / 2) < 1.64873.
Proof.
  pose proof exp_opp_half_bounds as [Hlo Hhi].
  pose proof (exp_pos (1 / 2)) as Hpos.
  assert (E : exp (- (1 / 2)) * exp (1 / 2) = 1).
  { rewrite <- exp_plus. replace (- (1 / 2) + 1 / 2) with 0 by lra.
    apply exp_0. }
  split; nra.
Qed.

(** ** C2: the numeric scenario *)

Lemma weights_policy3_arm0 :
  weights (updated 0 1 policy3) = [exp (1 / 2); 1; 1].
Proof.
  unfold updated, weight_factor, estimated_reward. simpl.
  rewrite Rmult_1_l. do 2 f_equal. field.
Qed.

Lemma probabilities_policy3_arm0 :
  probabilities (updated 0 1 policy3)
  = [2 / 3 - / (exp (1 / 2) + 2);
     1 / 2 * / (exp (1 / 2) + 2) + 1 / 6;
     1 / 2 * / (exp (1 / 2) + 2) + 1 / 6].
Proof.
  pose proof weights_policy3_arm0 as Hw.
  unfold updated in *. simpl weights in Hw. simpl probabilities.
  rewrite Hw. clear Hw.
  pose proof (exp_pos (1 / 2)) as He.
  rewrite normalize_unit.
  - unfold mix, np_sum. simpl.
    repeat (apply f_equal2; [field; lra |]). reflexivity.
  - apply np_sum_mix; [lia | reflexivity |].
    unfold np_sum; simpl. lra.
Qed.

(** C2. [LP_MAB(3, gamma=0.5)] starts with weights [[1,1,1]] and
    probabilities [[1/3,1/3,1/3]]; [update(0, 1)] computes the estimate
    [1 / (1/3) = 3] and the factor [exp(0.5 * 3 / 3) = exp(0.5)], leaves
    the weights [[exp(0.5), 1, 1]] with [exp(0.5)] = 1.6487..., and the
    probabilities 0.3925..., 0.3037..., 0.3037... (to the four decimals
    shown), which sum to one. *)
Theorem C2_numeric_scenario :
  init 3 (1 / 2) = Return policy3 /\
  weights policy3 = [1; 1; 1] /\
  probabilities policy3 = [1 / 3; 1 / 3; 1 / 3] /\
  estimated_reward policy3 0 1 = 3 /\
  weight_factor policy3 0 1 = exp (1 / 2) /\
  1.6487 <= exp (1 / 2) < 1.6488 /\
  exists s',
    update 0 1 policy3 = (Return tt, s') /\
    weights s' = [exp (1 / 2); 1; 1] /\
    exists p0 p1 p2,
      probabilities s' = [p0; p1; p2] /\
      0.3925 <= p0 < 0.3926 /\
      0.3037 <= p1 < 0.3038 /\
      0.3037 <= p2 < 0.3038 /\
      p0 + p1 + p2 = 1.
Proof.
  pose proof exp_half_bounds as [Hlo Hhi].
  assert (Hest : estimated_reward policy3 0 1 = 3)
    by (unfold estimated_reward; simpl; field).
  split; [reflexivity |]. split; [reflexivity |]. split; [reflexivity |].
  split; [exact Hest |].
  split.
  { unfold weight_factor. rewrite Hest. simpl. f_equal. field. }
  split; [lra |].
  exists (updated 0 1 policy3).
  split; [exact update_policy3_arm0 |].
  split; [exact weights_policy3_arm0 |].
  rewrite probabilities_policy3_arm0.
  set (W := exp (1 / 2) + 2) in *.
  assert (HW : 3.64871 < W < 3.64873) by (unfold W; lra).
  assert (HWi : W * / W = 1) by (apply Rinv_r; lra).
  assert (Hinv : 0.274067 < / W < 0.27407) by (split; nra).
  do 3 eexists. split; [reflexivity |].
  repeat split; lra.
Qed.

(** ** C5: updates of two distinct arms *)

Lemma set_nth_comm i j u v a :
  i <> j -> set_nth i u (set_nth j v a) = set_nth j v (set_nth i u a).
Proof.
  revert i j; induction a as [| h t IH]; intros [| i] [| j] H; simpl;
    try reflexivity; try congruence.
  rewrite IH by congruence. reflexivity.
Qed.

Lemma scale_weight_comm i j f1 f2 w :
  i <> j ->
  scale_weight j f2 (scale_weight i f1 w)
  = scale_weight i f1 (scale_weight j f2 w).
Proof.
  intros H. unfold scale_weight.
  rewrite (nth_set_nth_other i j) by exact H.
  rewrite (nth_set_nth_other j i) by congruence.
  apply set_nth_comm. congruence.
Qed.

Lemma weights_updated i reward s :
  weights (updated i reward s)
  = scale_weight i (weight_factor s i reward) (weights s).
Proof. reflexivity. Qed.

Lemma nth_scale_weight_other i j f w :
  i <> j -> nth j (scale_weight i f w) 0 = nth j w 0.
Proof. intros H. unfold scale_weight. apply nth_set_nth_other, H. Qed.

Lemma exp_half_gt_1 : 1 < exp (1 / 2).
Proof. pose proof exp_half_bounds. lra. Qed.

Lemma first_probability_after_arm1 :
  nth 0 (probabilities (updated 1 1 policy2)) 0
  = 1 / 2 * / (1 + exp (1 / 2)) + 1 / 4.
Proof.
  assert (Hw : weights (updated 1 1 policy2) = [1; exp (1 / 2)]).
  { unfold updated, weight_factor, estimated_reward. simpl.
    rewrite Rmult_1_l. do 3 f_equal. field. }
  pose proof (exp_pos (1 / 2)) as He.
  unfold updated in *. simpl weights in Hw. simpl probabilities.
  rewrite Hw. clear Hw. rewrite normalize_unit.
  - unfold mix, np_sum. simpl. field. lra.
  - apply np_sum_mix; [lia | reflexivity |]. unfold np_sum; simpl. lra.
Qed.

(** C5, as stated, fails: from [LP_MAB(2, gamma=0.5)], [update(0, 1)]
    then [update(1, 1)] and the same two calls in the other order leave
    different weights. *)
Lemma C5_counterexample :
  exists sa sab sb sba,
    update 0 1 policy2 = (Return tt, sa) /\
    update 1 1 sa = (Return tt, sab) /\
    update 1 1 policy2 = (Return tt, sb) /\
    update 0 1 sb = (Return tt, sba) /\
    weights sab <> weights sba.
Proof.
  pose proof policy2_well_formed as H2.
  exists (updated 0 1 policy2), (updated 1 1 (updated 0 1 policy2)),
    (updated 1 1 policy2), (updated 0 1 (updated 1 1 policy2)).
  do 4 (split;
        [apply update_returns; auto using updated_well_formed; reflexivity |]).
  intros E. apply (f_equal (fun w => nth 0 w 0)) in E.
  rewrite (weights_updated 1), nth_scale_weight_other in E by discriminate.
  rewrite (weights_updated 0 1 (updated 1 1 policy2)) in E.
  unfold scale_weight in E. rewrite nth_set_nth_same in E by (simpl; lia).
  unfold weight_factor, estimated_reward in E.
  rewrite first_probability_after_arm1 in E.
  simpl in E. rewrite !Rmult_1_l in E.
  apply exp_inv in E.
  pose proof exp_half_gt_1 as He.
  set (e := exp (1 / 2)) in *.
  assert (Hq : (1 + e) * / (1 + e) = 1) by (apply Rinv_r; lra).
  set (q := / (1 + e)) in *.
  set (p := 1 / 2 * q + 1 / 4) in *.
  assert (Hp : 0 < p < 1 / 2) by (unfold p; split; nra).
  assert (Hip : p * (1 / p) = 1) by (field; lra).
  set (ip := 1 / p) in *.
  unfold estimated_reward in E. simpl in E.
  assert (ip = 2) by lra.
  nra.
Qed.

Lemma scale_weight_twice i j a b w :
  i <> j ->
  scale_weight j b (scale_weight i a w)
  = set_nth j (nth j w 0 * b) (set_nth i (nth i w 0 * a) w).
Proof.
  intros H. unfold scale_weight.
  rewrite (nth_set_nth_other i j) by exact H. reflexivity.
Qed.

Lemma set_nth_twice_eq i j a b a' b' w :
  i <> j -> (i < length w)%nat -> (j < length w)%nat ->
  (set_nth j b (set_nth i a w) = set_nth j b' (set_nth i a' w)
   <-> a = a' /\ b = b').
Proof.
  intros Hij Hi Hj. split.
  - intros E. split.
    + apply (f_equal (fun l => nth i l 0)) in E.
      rewrite !(nth_set_nth_other j i) in E by congruence.
      rewrite !nth_set_nth_same in E by exact Hi. exact E.
    + apply (f_equal (fun l => nth j l 0)) in E.
      rewrite !nth_set_nth_same in E by (rewrite set_nth_length; exact Hj).
      exact E.
  - intros [-> ->]. reflexivity.
Qed.

(** C5, amended. For two distinct arms of a state whose arrays have [A]
    entries, both orders of the two calls return. Multiplying the two
    weights by given factors gives the same vector in either order, but
    each call of [update] takes its factor from the probabilities current
    at the call: after both calls the weights are the starting weights
    with arm [a] scaled by the factor of the state [update(a, r1)] ran in
    and arm [b] by that of the state [update(b, r2)] ran in. The two
    orders agree on every arm other than [a] and [b]; they leave the same
    weights vector exactly when each of the two arms ends with the same
    weight in both orders. *)
Theorem C5_distinct_arm_updates s a b r1 r2 :
  well_formed s ->
  (0 <= a < num_actions s)%Z -> (0 <= b < num_actions s)%Z -> a <> b ->
  let i := Z.to_nat a in
  let j := Z.to_nat b in
  exists sa sab sb sba,
    update a r1 s = (Return tt, sa) /\
    update b r2 sa = (Return tt, sab) /\
    update b r2 s = (Return tt, sb) /\
    update a r1 sb = (Return tt, sba) /\
    weights sab
    = scale_weight j (weight_factor sa j r2)
        (scale_weight i (weight_factor s i r1) (weights s)) /\
    weights sba
    = scale_weight i (weight_factor sb i r1)
        (scale_weight j (weight_factor s j r2) (weights s)) /\
    (forall f1 f2,
        scale_weight j f2 (scale_weight i f1 (weights s))
        = scale_weight i f1 (scale_weight j f2 (weights s))) /\
    (forall k, k <> i -> k <> j ->
               nth k (weights sab) 0 = nth k (weights sba) 0) /\
    (weights sab = weights sba <->
     nth i (weights s) 0 * weight_factor s i r1
     = nth i (weights s) 0 * weight_factor sb i r1 /\
     nth j (weights s) 0 * weight_factor sa j r2
     = nth j (weights s) 0 * weight_factor s j r2).
Proof.
  intros Hwf Ha Hb Hab i j.
  assert (Hij : i <> j) by (unfold i, j; lia).
  assert (Hi : py_index (Z.to_nat (num_actions s)) a = Return i)
    by (apply py_index_in_range; lia).
  assert (Hj : py_index (Z.to_nat (num_actions s)) b = Return j)
    by (apply py_index_in_range; lia).
  pose proof Hwf as (_ & Hw & _ & _).
  exists (updated i r1 s), (updated j r2 (updated i r1 s)),
    (updated j r2 s), (updated i r1 (updated j r2 s)).
  split; [apply update_returns; assumption |].
  split; [apply update_returns; [apply updated_well_formed |]; assumption |].
  split; [apply update_returns; assumption |].
  split; [apply update_returns; [apply updated_well_formed |]; assumption |].
  rewrite !weights_updated.
  split; [reflexivity |]. split; [reflexivity |].
  split; [intros f1 f2; apply scale_weight_comm, Hij |].
  split.
  - intros k Hki Hkj.
    rewrite !nth_scale_weight_other by congruence. reflexivity.
  - rewrite <- (scale_weight_comm i j (weight_factor (updated j r2 s) i r1)
                  (weight_factor s j r2)) by exact Hij.
    rewrite !scale_weight_twice by exact Hij.
    apply set_nth_twice_eq; [exact Hij | |]; rewrite Hw; unfold i, j; lia.
Qed.

Lemma C5_witness :
  exists sa sab sb sba,
    update 0 1 policy2 = (Return tt, sa) /\
    update 1 1 sa = (Return tt, sab) /\
    update 1 1 policy2 = (Return tt, sb) /\
    update 0 1 sb = (Return tt, sba) /\
    weights sab
    = scale_weight 1 (weight_factor sa 1 1)
        (scale_weight 0 (weight_factor policy2 0 1) (weights policy2)) /\
    weights sba
    = scale_weight 0 (weight_factor sb 0 1)
        (scale_weight 1 (weight_factor policy2 1 1) (weights policy2)) /\
    (forall f1 f2,
        scale_weight 1 f2 (scale_weight 0 f1 (weights policy2))
        = scale_weight 0 f1 (scale_weight 1 f2 (weights policy2))) /\
    (forall k, k <> 0%nat -> k <> 1%nat ->
               nth k (weights sab) 0 = nth k (weights sba) 0) /\
    (weights sab = weights sba <->
     nth 0 (weights policy2) 0 * weight_factor policy2 0 1
     = nth 0 (weights policy2) 0 * weight_factor sb 0 1 /\
     nth 1 (weights policy2) 0 * weight_factor sa 1 1
     = nth 1 (weights policy2) 0 * weight_factor policy2 1 1).
Proof.
  apply (C5_distinct_arm_updates policy2 0 1 1 1).
  - exact policy2_well_formed.
  - change (num_actions policy2) with 2%Z; lia.
  - change (num_actions policy2) with 2%Z; lia.
  - discriminate.
Defined.

(** ** C10: select_action *)

Lemma cumsum_from_length acc p : length (cumsum_from acc p) = length p.
Proof.
  revert acc; induction p as [| h t IH]; intros acc; simpl; auto.
Qed.

Lemma last_cumsum_from acc p d :
  p <> [] -> last (cumsum_from acc p) d = acc + np_sum p.
Proof.
  revert acc; induction p as [| h t IH]; intros acc Hne; [congruence |].
  destruct t as [| h' t'].
  - unfold np_sum; simpl. lra.
  - change (cumsum_from acc (h :: h' :: t'))
      with ((acc + h) :: cumsum_from (acc + h) (h' :: t')).
    change (last ((acc + h) :: cumsum_from (acc + h) (h' :: t')) d)
      with (last (cumsum_from (acc + h) (h' :: t')) d).
    rewrite IH by discriminate. unfold np_sum; simpl. lra.
Qed.

Lemma last_map_R (f : R -> R) l d : last (map f l) (f d) = f (last l d).
Proof.
  induction l as [| h t IH]; [reflexivity |].
  destruct t; [reflexivity |]. exact IH.
Qed.

Lemma searchsorted_right_le a v : (searchsorted_right a v <= length a)%nat.
Proof.
  induction a as [| h t IH]; simpl; [lia |].
  destruct (Rlt_dec v h); lia.
Qed.

Lemma searchsorted_right_lt a v d :
  a <> [] -> v < last a d -> (searchsorted_right a v < length a)%nat.
Proof.
  induction a as [| h t IH]; intros Hne Hv; [congruence |].
  simpl. destruct (Rlt_dec v h) as [_ | Hge]; [lia |].
  destruct t as [| h' t'].
  - simpl in Hv. contradiction.
  - assert ((searchsorted_right (h' :: t') v < length (h' :: t'))%nat)
      by (apply IH; [discriminate | exact Hv]).
    lia.
Qed.

Lemma choice_atol_small : 0 < choice_atol < 1.
Proof.
  unfold choice_atol.
  assert (H : 1 < 2 ^ 26) by (simpl; lra).
  split.
  - apply Rinv_0_lt_compat. lra.
  - rewrite <- Rinv_1. apply Rinv_lt_contravar; lra.
Qed.

Lemma np_random_choice_range a p u action :
  u < 1 -> np_random_choice a p u = Return action -> (0 <= action < a)%Z.
Proof.
  intros Hu. unfold np_random_choice.
  destruct (Z.leb_spec a 0) as [| Ha]; [discriminate |].
  destruct (Z.eqb_spec (Z.of_nat (length p)) a) as [Hlen |]; [| discriminate].
  simpl. destruct (any_negative p); [discriminate |].
  destruct (Rlt_dec choice_atol (Rabs (np_sum p - 1))) as [| Hsum];
    [discriminate |].
  intros [= <-].
  assert (Hne : p <> []) by (intros ->; simpl in Hlen; lia).
  assert (Hpos : 0 < np_sum p).
  { pose proof choice_atol_small. apply Rnot_lt_le in Hsum.
    unfold Rabs in Hsum. destruct (Rcase_abs (np_sum p - 1)); lra. }
  set (cdf := np_cumsum p).
  assert (Hlast : last cdf 0 = np_sum p).
  { unfold cdf, np_cumsum. rewrite last_cumsum_from by exact Hne. lra. }
  set (cdf' := map (fun c => c / last cdf 0) cdf).
  assert (Hlen' : length cdf' = length p).
  { unfold cdf', cdf, np_cumsum. rewrite length_map. apply cumsum_from_length. }
  assert (Hlt : (searchsorted_right cdf' u < length cdf')%nat).
  { apply searchsorted_right_lt with (d := 0 / last cdf 0).
    - intros E. rewrite E in Hlen'. destruct p; [congruence | discriminate].
    - unfold cdf'. rewrite (last_map_R (fun c => c / last cdf 0)), Hlast.
      unfold Rdiv. rewrite Rinv_r by lra. exact Hu. }
  lia.
Qed.

Lemma any_negative_false p :
  Forall (fun x => 0 <= x) p -> any_negative p = false.
Proof.
  induction 1 as [| h t Hh Ht IH]; simpl; [reflexivity |].
  destruct (Rlt_dec h 0); [lra | exact IH].
Qed.

Lemma np_random_choice_returns a p u :
  (0 < a)%Z -> length p = Z.to_nat a ->
  Forall (fun x => 0 <= x) p -> np_sum p = 1 ->
  exists action, np_random_choice a p u = Return action.
Proof.
  intros Ha Hlen Hnn Hsum. unfold np_random_choice.
  destruct (Z.leb_spec a 0); [lia |].
  destruct (Z.eqb_spec (Z.of_nat (length p)) a) as [_ | Hne]; [| lia].
  simpl. rewrite any_negative_false by exact Hnn.
  destruct (Rlt_dec choice_atol (Rabs (np_sum p - 1))) as [Hbad |].
  - exfalso. rewrite Hsum in Hbad.
    replace (1 - 1) with 0 in Hbad by ring. rewrite Rabs_R0 in Hbad.
    pose proof choice_atol_small. lra.
  - eexists; reflexivity.
Qed.

(** C10. [select_action] leaves the object exactly as it was, whatever
    the state and the draw; when it returns an action (draw below one)
    the action lies in [[0, A)]; and it does return one when the
    probabilities form a distribution over the [A > 0] arms. *)
Theorem C10_select_action_pure_and_in_range s u :
  u < 1 ->
  snd (select_action u s) = s /\
  (forall action, fst (select_action u s) = Return action ->
                  (0 <= action < num_actions s)%Z) /\
  ((0 < num_actions s)%Z ->
   length (probabilities s) = Z.to_nat (num_actions s) ->
   Forall (fun p => 0 <= p) (probabilities s) ->
   np_sum (probabilities s) = 1 ->
   exists action, select_action u s = (Return action, s)).
Proof.
  intros Hu. unfold select_action, bind, get, lift, ret.
  destruct (np_random_choice (num_actions s) (probabilities s) u)
    as [a | e] eqn:Hc; simpl.
  - split; [reflexivity |]. split.
    + intros action [= <-]. eapply np_random_choice_range; eauto.
    + intros _ _ _ _. exists a. reflexivity.
  - split; [reflexivity |]. split; [discriminate |].
    intros Hn Hlen Hnn Hsum.
    destruct (np_random_choice_returns _ _ u Hn Hlen Hnn Hsum) as (a & Ha).
    congruence.
Qed.

Lemma policy3_sum : np_sum (probabilities policy3) = 1.
Proof. unfold np_sum; simpl. lra. Qed.

Lemma policy3_nonnegative : Forall (fun p => 0 <= p) (probabilities policy3).
Proof. simpl. repeat constructor; lra. Qed.

Lemma C10_witness :
  snd (select_action (1 / 2) policy3) = policy3 /\
  (forall action, fst (select_action (1 / 2) policy3) = Return action ->
                  (0 <= action < 3)%Z) /\
  exists action, select_action (1 / 2) policy3 = (Return action, policy3).
Proof.
  destruct (C10_select_action_pure_and_in_range policy3 (1 / 2))
    as (Hs & Hr & Ht).
  - lra.
  - split; [exact Hs |]. split; [exact Hr |].
    apply Ht.
    + simpl; lia.
    + reflexivity.
    + exact policy3_nonnegative.
    + exact policy3_sum.
Defined.

(** ** C1: the probabilities of a reachable state *)








(** ** The socket loop *)

Lemma handle_message rng c data rest w :
  handle_client_connection rng (Data (String c data) :: rest) w
  = (ar <- lift (Wire.parse_message (String c data)) ;;
     with_lp_mab (update (fst ar) (IZR (snd ar))) ;;
     u <- random_sample rng ;;
     next_action <- with_lp_mab (select_action u) ;;
     emit (EvSend (Wire.str next_action)) ;;
     handle_client_connection rng rest) w.
Proof. reflexivity. Qed.

Lemma handle_close rng rest w :
  handle_client_connection rng (Data EmptyString :: rest) w = (Return tt, closed w).
Proof. reflexivity. Qed.

Lemma handle_end rng w :
  handle_client_connection rng [] w = (Return tt, closed w).
Proof. reflexivity. Qed.

Lemma handle_recv_fail rng rest w :
  handle_client_connection rng (RecvFail :: rest) w
  = (Raise ConnectionResetError, w).
Proof. reflexivity. Qed.

Lemma accept_loop_cons rng client_socket later w :
  accept_loop rng (client_socket :: later) w
  = match handle_client_connection rng client_socket w with
    | (Return _, w') => accept_loop rng later w'
    | (Raise e, w') => (Raise e, w')
    end.
Proof.
  simpl. unfold bind.
  destruct (handle_client_connection rng client_socket w) as [[[] | e] w'];
    reflexivity.
Qed.

(** A message either is answered, and the loop goes on from a world that
    does not depend on what follows, or raises, whatever follows. *)
Lemma handle_message_cases rng c data w :
  (exists w', forall rest,
      handle_client_connection rng (Data (String c data) :: rest) w
      = handle_client_connection rng rest w')
  \/ (exists e w', forall rest,
         handle_client_connection rng (Data (String c data) :: rest) w
         = (Raise e, w')).
Proof.
  destruct (Wire.parse_message (String c data)) as [ar | e] eqn:Hparse.
  2: { right. exists e, w. intros rest. rewrite handle_message.
       unfold bind at 1. unfold lift at 1. rewrite Hparse. reflexivity. }
  destruct (update (fst ar) (IZR (snd ar)) (lp_mab w)) as [[[] | e] s1]
    eqn:Hup.
  2: { right. exists e, (mkWorld s1 (tick w) (trace w)). intros rest.
       rewrite handle_message.
       unfold bind at 1. unfold lift at 1. rewrite Hparse.
       unfold bind at 1. unfold with_lp_mab at 1. rewrite Hup. reflexivity. }
  destruct (np_random_choice (num_actions s1) (probabilities s1)
              (rng (tick w))) as [next | e] eqn:Hnext.
  - left.
    exists (mkWorld s1 (S (tick w)) (trace w ++ [EvSend (Wire.str next)])).
    intros rest. rewrite handle_message.
    unfold bind at 1. unfold lift at 1. rewrite Hparse.
    unfold bind at 1. unfold with_lp_mab at 1. rewrite Hup.
    unfold bind at 1. unfold random_sample at 1.
    unfold bind at 1. unfold with_lp_mab at 1.
    unfold select_action, bind at 1, get, lift, ret. simpl lp_mab.
    simpl tick. rewrite Hnext. reflexivity.
  - right. exists e, (mkWorld s1 (S (tick w)) (trace w)).
    intros rest. rewrite handle_message.
    unfold bind at 1. unfold lift at 1. rewrite Hparse.
    unfold bind at 1. unfold with_lp_mab at 1. rewrite Hup.
    unfold bind at 1. unfold random_sample at 1.
    unfold bind at 1. unfold with_lp_mab at 1.
    unfold select_action, bind at 1, get, lift, ret. simpl lp_mab.
    simpl tick. rewrite Hnext. reflexivity.
Qed.

Lemma handle_messages_then rng pre w w1 :
  Forall is_message pre ->
  handle_client_connection rng pre w = (Return tt, w1) ->
  exists w0,
    w1 = closed w0 /\
    forall last_recv rest,
      handle_client_connection rng (pre ++ last_recv :: rest) w
      = handle_client_connection rng (last_recv :: rest) w0.
Proof.
  intros Hpre. revert w. induction Hpre as [| r pre Hr _ IH]; intros w H.
  - rewrite handle_end in H. injection H as <-. exists w. auto.
  - destruct r as [[| c data] |]; try contradiction.
    destruct (handle_message_cases rng c data w)
      as [(w' & Hgo) | (e & w' & Hstop)].
    + rewrite Hgo in H. destruct (IH _ H) as (w0 & -> & Hw0).
      exists w0. split; [reflexivity |]. intros last_recv rest.
      rewrite <- app_comm_cons, Hgo. apply Hw0.
    + rewrite Hstop in H. discriminate.
Qed.

(** A concrete exchange: the policy of three arms receives ["0,1"], the
    draw is 0, the answer is arm 0, then the peer closes. *)
Lemma choice_after_arm0 :
  np_random_choice 3 (probabilities (updated 0 1 policy3)) 0 = Return 0%Z.
Proof.
  destruct (reachable_inv 3 (1 / 2) _ ltac:(lia) ltac:(lra)
              reachable_policy3_arm0) as (_ & Hsum & _).
  unfold np_random_choice.
  rewrite probabilities_policy3_arm0 in *.
  pose proof exp_half_bounds as [Hlo Hhi].
  set (W := exp (1 / 2) + 2) in *.
  assert (HW : 3.6 < W < 3.7) by (unfold W; lra).
  assert (HWi : W * / W = 1) by (apply Rinv_r; lra).
  assert (Hinv : 0.27 < / W < 0.28) by (split; nra).
  rewrite any_negative_false by (repeat (apply Forall_cons; [lra |]); apply Forall_nil).
  simpl Z.leb. cbv iota. simpl negb. cbv iota.
  destruct (Rlt_dec choice_atol _) as [Hbad |].
  { exfalso. rewrite Hsum in Hbad. replace (1 - 1) with 0 in Hbad by ring.
    rewrite Rabs_R0 in Hbad. pose proof choice_atol_small. lra. }
  unfold np_cumsum. simpl.
  destruct (Rlt_dec 0 _) as [_ | Hn]; [reflexivity |].
  exfalso. apply Hn. apply Rdiv_lt_0_compat; lra.
Qed.

Lemma handle_exchange_example :
  handle_client_connection rng_zero [Data "0,1"] world3
  = (Return tt, closed (mkWorld (updated 0 1 policy3) 1 [EvSend "0"])).
Proof.
  rewrite handle_message. unfold bind at 1. unfold lift at 1.
  change (Wire.parse_message "0,1") with (@Return (Z * Z) (0%Z, 1%Z)).
  unfold bind at 1. unfold with_lp_mab at 1.
  change (update (fst (0%Z, 1%Z)) (IZR (snd (0%Z, 1%Z))) (lp_mab world3))
    with (update 0 1 policy3).
  rewrite update_policy3_arm0.
  unfold bind at 1. unfold random_sample at 1.
  unfold bind at 1. unfold with_lp_mab at 1.
  unfold select_action, bind at 1, get, lift, ret. simpl lp_mab. simpl tick.
  change (num_actions (updated 0 1 policy3)) with 3%Z.
  change (rng_zero 0) with 0.
  rewrite choice_after_arm0. reflexivity.
Qed.

(** ** C8: a malformed message *)

(** C8, as stated, fails: a message without the reward field makes the
    handler raise [ValueError]; no update with reward 0 is applied,
    nothing is sent, the next message of the connection is not read. *)
Lemma C8_counterexample :
  Wire.parse_message "0" = Raise ValueError /\
  handle_client_connection rng_zero [Data "0"; Data "1,1"] world3
  = (Raise ValueError, world3) /\
  lp_mab world3 <> updated 0 0 policy3 /\
  trace world3 = [].
Proof.
  split; [reflexivity |]. split; [reflexivity |]. split; [| reflexivity].
  intros H. apply (f_equal action_counts) in H. simpl in H.
  injection H as H. lra.
Qed.

Lemma parse_message_raises data e :
  Wire.parse_message data = Raise e ->
  match Wire.decode data with
  | None => e = UnicodeDecodeError
  | Some text =>
      e = ValueError /\
      forall action reward,
        map Wire.py_int (Wire.split 44 text) <> [Some action; Some reward]
  end.
Proof.
  unfold Wire.parse_message.
  destruct (Wire.decode data) as [text |]; [| congruence].
  destruct (map Wire.py_int (Wire.split 44 text))
    as [| [a |] [| [b |] [| c r]]]; intros H; try discriminate;
    (split; [congruence | intros action reward; discriminate]).
Qed.

(** C8, amended. A message on which the parsing raises -- bytes that
    are not UTF-8 ([UnicodeDecodeError]), or text that does not split at
    the commas into exactly two fields that [int] accepts
    ([ValueError]) -- makes [handle_client_connection] raise that
    exception with the policy, the generator and the output exactly as
    they were: no reward is substituted, [update] is not called, nothing
    is sent, the rest of the connection is not read, and the exception
    leaves the accept loop as well. *)
Theorem C8_malformed_message_raises rng data rest later w e :
  data <> EmptyString ->
  Wire.parse_message data = Raise e ->
  match Wire.decode data with
  | None => e = UnicodeDecodeError
  | Some text =>
      e = ValueError /\
      forall action reward,
        map Wire.py_int (Wire.split 44 text) <> [Some action; Some reward]
  end /\
  handle_client_connection rng (Data data :: rest) w = (Raise e, w) /\
  accept_loop rng ((Data data :: rest) :: later) w = (Raise e, w).
Proof.
  intros Hne Hparse. split; [apply parse_message_raises, Hparse |].
  destruct data as [| c data]; [congruence |].
  assert (H : handle_client_connection rng (Data (String c data) :: rest) w
              = (Raise e, w)).
  { rewrite handle_message. unfold bind at 1. unfold lift at 1.
    rewrite Hparse. reflexivity. }
  split; [exact H |]. rewrite accept_loop_cons, H. reflexivity.
Qed.

Lemma C8_witness :
  (ValueError = ValueError /\
   forall action reward,
     map Wire.py_int (Wire.split 44 [97; 44; 49]%N)
     <> [Some action; Some reward]) /\
  handle_client_connection rng_zero [Data "a,1"; Data "1,1"] world3
  = (Raise ValueError, world3) /\
  accept_loop rng_zero [[Data "a,1"; Data "1,1"]; [Data "2,1"]] world3
  = (Raise ValueError, world3).
Proof.
  apply (C8_malformed_message_raises rng_zero "a,1" [Data "1,1"]
           [[Data "2,1"]] world3 ValueError).
  - discriminate.
  - reflexivity.
Defined.

(** ** C9: the end of a connection *)

(** C9, as stated, fails: when [recv] fails in the first connection the
    exception leaves [main]'s loop, and the second connection, which a
    running server would accept and close, is never served. *)
Lemma C9_counterexample :
  accept_loop rng_zero [[RecvFail]; [Data EmptyString]] world3
  = (Raise ConnectionResetError, world3) /\
  accept_loop rng_zero [[Data EmptyString]] world3
  = (Return tt, closed world3) /\
  (forall w,
      accept_loop rng_zero [[RecvFail]; [Data EmptyString]] world3
      <> accept_loop rng_zero [[Data EmptyString]] w) /\
  exists w,
    main rng_zero [[RecvFail]; [Data EmptyString]]
    = Return (Raise ConnectionResetError, w) /\
    trace w = [].
Proof.
  split; [reflexivity |]. split; [reflexivity |].
  split; [intros w; discriminate |].
  eexists. split; reflexivity.
Qed.

(** C9, amended. Let a connection deliver the messages [pre], all
    answered, leaving the world [w0]. If the peer then closes, the
    handler returns having only closed the socket, the policy is the one
    of [w0], and the accept loop serves the next connection from it. If
    instead [recv] fails, the policy is again left as in [w0], but the
    exception leaves the accept loop: no further connection is served. *)
Theorem C9_close_keeps_policy_failure_stops_loop rng pre rest later w w1 :
  Forall is_message pre ->
  handle_client_connection rng pre w = (Return tt, w1) ->
  exists w0,
    w1 = closed w0 /\
    handle_client_connection rng (pre ++ Data EmptyString :: rest) w
    = (Return tt, closed w0) /\
    lp_mab (closed w0) = lp_mab w0 /\
    accept_loop rng ((pre ++ Data EmptyString :: rest) :: later) w
    = accept_loop rng later (closed w0) /\
    handle_client_connection rng (pre ++ RecvFail :: rest) w
    = (Raise ConnectionResetError, w0) /\
    accept_loop rng ((pre ++ RecvFail :: rest) :: later) w
    = (Raise ConnectionResetError, w0).
Proof.
  intros Hpre H.
  destruct (handle_messages_then _ _ _ _ Hpre H) as (w0 & -> & Hw0).
  exists w0. split; [reflexivity |].
  assert (Hc : handle_client_connection rng (pre ++ Data EmptyString :: rest) w
               = (Return tt, closed w0))
    by (rewrite Hw0; apply handle_close).
  assert (Hf : handle_client_connection rng (pre ++ RecvFail :: rest) w
               = (Raise ConnectionResetError, w0))
    by (rewrite Hw0; apply handle_recv_fail).
  split; [exact Hc |]. split; [reflexivity |].
  split; [rewrite accept_loop_cons, Hc; reflexivity |].
  split; [exact Hf |]. rewrite accept_loop_cons, Hf. reflexivity.
Qed.

Lemma C9_witness :
  exists w0,
    closed (mkWorld (updated 0 1 policy3) 1 [EvSend "0"]) = closed w0 /\
    handle_client_connection rng_zero
      ([Data "0,1"] ++ Data EmptyString :: [Data "1,1"]) world3
    = (Return tt, closed w0) /\
    lp_mab (closed w0) = lp_mab w0 /\
    accept_loop rng_zero
      (([Data "0,1"] ++ Data EmptyString :: [Data "1,1"])
         :: [[Data EmptyString]]) world3
    = accept_loop rng_zero [[Data EmptyString]] (closed w0) /\
    handle_client_connection rng_zero
      ([Data "0,1"] ++ RecvFail :: [Data "1,1"]) world3
    = (Raise ConnectionResetError, w0) /\
    accept_loop rng_zero
      (([Data "0,1"] ++ RecvFail :: [Data "1,1"]) :: [[Data EmptyString]])
      world3
    = (Raise ConnectionResetError, w0).
Proof.
  apply (C9_close_keeps_policy_failure_stops_loop rng_zero [Data "0,1"]
           [Data "1,1"] [[Data EmptyString]] world3).
  - repeat constructor.
  - exact handle_exchange_example.
Defined.

(** * Further properties of the policy *)

(** ** The counters *)

Lemma np_sum_set_nth i v a :
  (i < length a)%nat -> np_sum (set_nth i v a) = np_sum a - nth i a 0 + v.
Proof.
  revert i. induction a as [| h t IH]; intros [| j] Hi; simpl in *; try lia;
    unfold np_sum in *; simpl.
  - lra.
  - rewrite IH by lia. lra.
Qed.

(** X3. On a state whose arrays have [A] entries, a call of [update]
    that returns has added one to the counter of the arm the action id
    resolves to and to no other counter, so the counters' total grows by
    exactly one; a call that raises leaves every counter as it was. *)
Theorem X3_update_counts_one_call s action reward o s' :
  well_formed s -> update action reward s = (o, s') ->
  (o = Return tt /\
   exists i, py_index (Z.to_nat (num_actions s)) action = Return i /\
     nth i (action_counts s') 0 = nth i (action_counts s) 0 + 1 /\
     (forall j, j <> i ->
                nth j (action_counts s') 0 = nth j (action_counts s) 0) /\
     np_sum (action_counts s') = np_sum (action_counts s) + 1)
  \/ (o = Raise IndexError /\ action_counts s' = action_counts s).
Proof.
  intros Hwf H.
  destruct (update_cases s Hwf _ _ _ _ H) as [(i & Hi & -> & ->) | (-> & ->)];
    [left | right; auto].
  split; [reflexivity |]. exists i. split; [exact Hi |].
  destruct Hwf as (_ & _ & _ & Hc).
  pose proof (py_index_bound _ _ _ Hi) as Hlt. rewrite <- Hc in Hlt.
  unfold updated; simpl. repeat split.
  - apply nth_set_nth_same, Hlt.
  - intros j Hj. apply nth_set_nth_other. congruence.
  - rewrite np_sum_set_nth by exact Hlt. lra.
Qed.

Lemma X3_witness :
  (Return tt = Return tt /\
   exists i, py_index (Z.to_nat (num_actions policy3)) (-1) = Return i /\
     nth i (action_counts (updated 2 1 policy3)) 0
     = nth i (action_counts policy3) 0 + 1 /\
     (forall j, j <> i ->
                nth j (action_counts (updated 2 1 policy3)) 0
                = nth j (action_counts policy3) 0) /\
     np_sum (action_counts (updated 2 1 policy3))
     = np_sum (action_counts policy3) + 1)
  \/ (Return tt = Raise IndexError /\
      action_counts (updated 2 1 policy3) = action_counts policy3).
Proof.
  apply (X3_update_counts_one_call policy3 (-1) 1).
  - exact policy3_well_formed.
  - apply update_returns; [exact policy3_well_formed | reflexivity].
Defined.

(** ** A policy without arms *)

(** X6. [LP_MAB(n)] with a negative [n] raises [ValueError]. With
    [n = 0] it builds empty arrays, and then every call of [update]
    raises [IndexError] and every call of [select_action] raises
    [ValueError], each leaving the object as built. *)
Theorem X6_policy_without_arms g :
  (forall n, (n < 0)%Z -> init n g = Raise ValueError) /\
  exists s,
    init 0 g = Return s /\
    weights s = [] /\ probabilities s = [] /\ action_counts s = [] /\
    (forall action reward, update action reward s = (Raise IndexError, s)) /\
    (forall u, select_action u s = (Raise ValueError, s)).
Proof.
  split.
  - intros n Hn. unfold init. destruct (Z.ltb_spec n 0); [reflexivity | lia].
  - eexists. split; [reflexivity |]. simpl.
    do 3 (split; [reflexivity |]). split.
    + intros action reward. apply update_raises.
      * unfold well_formed; simpl. repeat split; auto; lia.
      * apply py_index_out_of_range. simpl. lia.
    + intros u. reflexivity.
Qed.

(** * Further properties of select_action *)









(** * The wire between the ns-3 client and the controller *)

(** ** Decimal digits *)

Lemma digit_not_space c d :
  Wire.digit_of c = Some d -> Wire.Py_ISSPACE c = false.
Proof.
  unfold Wire.digit_of, Wire.Py_ISSPACE.
  destruct (Nat.leb_spec 48 (nat_of_ascii c)); simpl; [| discriminate].
  intros _.
  destruct (Nat.leb_spec 9 (nat_of_ascii c)),
    (Nat.leb_spec (nat_of_ascii c) 13),
    (Nat.eqb_spec (nat_of_ascii c) 32); simpl; try reflexivity; lia.
Qed.

Lemma digit_not_isspace c d :
  Wire.digit_of c = Some d -> Ns3Client.isspace c = false.
Proof.
  unfold Wire.digit_of, Ns3Client.isspace.
  destruct (Nat.leb_spec 48 (nat_of_ascii c)); simpl; [| discriminate].
  intros _.
  destruct (Nat.eqb_spec (nat_of_ascii c) 32),
    (Nat.leb_spec 9 (nat_of_ascii c)),
    (Nat.leb_spec (nat_of_ascii c) 13); simpl; try reflexivity; lia.
Qed.

Lemma digit_code c d :
  Wire.digit_of c = Some d -> (48 <= N_of_ascii c <= 57)%N.
Proof.
  unfold Wire.digit_of, nat_of_ascii.
  destruct (Nat.leb_spec 48 (N.to_nat (N_of_ascii c))),
    (Nat.leb_spec (N.to_nat (N_of_ascii c)) 57); simpl; try discriminate.
  intros _. lia.
Qed.

Lemma string_of_uint_all_digits d :
  all_digits (DecimalString.NilEmpty.string_of_uint d).
Proof.
  induction d; simpl; auto; split; auto; eexists; reflexivity.
Qed.

Lemma digits_value_uint acc d :
  Wire.digits_value acc true (DecimalString.NilEmpty.string_of_uint d)
  = Some (uint_value acc d).
Proof.
  revert acc. induction d; intros acc; simpl; auto.
Qed.

Lemma take_digits_uint acc d :
  Ns3Client.take_digits acc true (DecimalString.NilEmpty.string_of_uint d)
  = Some (uint_value acc d).
Proof.
  revert acc. induction d; intros acc; simpl; auto.
Qed.

Lemma uint_value_of_uint_acc d p :
  Z.pos (Pos.of_uint_acc d p) = uint_value (Z.pos p) d.
Proof.
  revert p. induction d; intros p; cbn [Pos.of_uint_acc uint_value]; auto;
    rewrite IHd; f_equal; lia.
Qed.

Lemma uint_value_of_uint d : Z.of_N (Pos.of_uint d) = uint_value 0 d.
Proof.
  induction d; simpl; auto; rewrite uint_value_of_uint_acc; reflexivity.
Qed.

Lemma to_uint_nonnil p : Pos.to_uint p <> Decimal.Nil.
Proof.
  intros E. pose proof (DecimalPos.Unsigned.of_to p) as H.
  rewrite E in H. discriminate.
Qed.

(** The digits [operator<<] writes for [n >= 0]: a non-empty string of
    digits whose value is [n]. *)
Lemma put_unsigned_digits n :
  (0 <= n)%Z ->
  exists d,
    Ns3Client.put_unsigned n = DecimalString.NilEmpty.string_of_uint d /\
    d <> Decimal.Nil /\ uint_value 0 d = n.
Proof.
  intros Hn. unfold Ns3Client.put_unsigned. destruct n as [| p | p]; [| | lia].
  - exists (Decimal.D0 Decimal.Nil). repeat split. discriminate.
  - exists (Pos.to_uint p). simpl.
    pose proof (to_uint_nonnil p) as Hne. repeat split; auto.
    + destruct (Pos.to_uint p); auto. congruence.
    + rewrite <- uint_value_of_uint, DecimalPos.Unsigned.of_to. reflexivity.
Qed.

Lemma str_nonnegative n : (0 <= n)%Z -> Wire.str n = Ns3Client.put_unsigned n.
Proof. destruct n; [reflexivity | reflexivity | lia]. Qed.

Lemma lstrip_digits s : all_digits s -> Wire.lstrip s = s.
Proof.
  destruct s as [| c t]; [reflexivity |]. intros [[d Hd] _]. simpl.
  rewrite (digit_not_space _ _ Hd). reflexivity.
Qed.

Lemma rstrip_digits s : all_digits s -> Wire.rstrip s = s.
Proof.
  induction s as [| c t IH]; [reflexivity |]. intros [[d Hd] Ht]. simpl.
  rewrite (IH Ht), (digit_not_space _ _ Hd). destruct t; reflexivity.
Qed.

Lemma skip_space_digits s : all_digits s -> Ns3Client.skip_space s = s.
Proof.
  destruct s as [| c t]; [reflexivity |]. intros [[d Hd] _]. simpl.
  rewrite (digit_not_isspace _ _ Hd). reflexivity.
Qed.

Lemma PyLong_FromString_digits d :
  d <> Decimal.Nil ->
  Wire.PyLong_FromString (DecimalString.NilEmpty.string_of_uint d)
  = Some (uint_value 0 d).
Proof.
  intros Hne. unfold Wire.PyLong_FromString.
  rewrite lstrip_digits, rstrip_digits by apply string_of_uint_all_digits.
  destruct d; try congruence; simpl; apply digits_value_uint.
Qed.

Lemma stoi_digits d :
  d <> Decimal.Nil ->
  (uint_value 0 d <= Ns3Client.INT_MAX)%Z ->
  (0 <= uint_value 0 d)%Z ->
  Ns3Client.stoi (DecimalString.NilEmpty.string_of_uint d)
  = Ns3Client.Value (uint_value 0 d).
Proof.
  intros Hne Hmax Hmin. unfold Ns3Client.stoi.
  rewrite skip_space_digits by apply string_of_uint_all_digits.
  assert (H : Ns3Client.take_digits 0 false
                (DecimalString.NilEmpty.string_of_uint d)
              = Some (uint_value 0 d))
    by (destruct d; try congruence; simpl; apply take_digits_uint).
  assert (Hrange : ((Ns3Client.INT_MIN <=? uint_value 0 d)
                    && (uint_value 0 d <=? Ns3Client.INT_MAX))%Z = true).
  { apply andb_true_intro. split; apply Z.leb_le; [| exact Hmax].
    unfold Ns3Client.INT_MIN. lia. }
  destruct d; try congruence; cbn [DecimalString.NilEmpty.string_of_uint];
    cbv iota; cbn [DecimalString.NilEmpty.string_of_uint] in H;
    rewrite H, Hrange; reflexivity.
Qed.

(** ** ASCII bytes and the text they decode to *)

Lemma codes_app s1 s2 : codes (s1 ++ s2) = codes s1 ++ codes s2.
Proof.
  unfold codes. induction s1 as [| c t IH]; simpl; [| rewrite IH]; reflexivity.
Qed.

Lemma decode_ascii s : all_ascii s -> Wire.decode s = Some (codes s).
Proof.
  induction s as [| c t IH]; [reflexivity |]. intros [Hc Ht].
  cbn [Wire.decode]. cbv zeta.
  replace (N_of_ascii c <? 128)%N with true by (symmetry; apply N.ltb_lt, Hc).
  rewrite (IH Ht). reflexivity.
Qed.

Lemma is_ascii_codes s : all_ascii s -> Wire.is_ascii (codes s) = true.
Proof.
  unfold Wire.is_ascii, codes.
  induction s as [| c t IH]; [reflexivity |]. intros [Hc Ht]. simpl.
  rewrite (IH Ht). replace (N_of_ascii c <? 128)%N with true
    by (symmetry; apply N.ltb_lt, Hc).
  reflexivity.
Qed.

Lemma string_of_codes s :
  string_of_list_ascii (map ascii_of_N (codes s)) = s.
Proof.
  unfold codes. induction s as [| c t IH]; [reflexivity |]. simpl.
  rewrite ascii_N_embedding, IH. reflexivity.
Qed.

(** On text that is all ASCII, [int] is [PyLong_FromString]. *)
Lemma py_int_ascii s :
  all_ascii s -> Wire.py_int (codes s) = Wire.PyLong_FromString s.
Proof.
  intros H. unfold Wire.py_int, Wire.TransformDecimalAndSpaceToASCII.
  rewrite (is_ascii_codes _ H), string_of_codes. reflexivity.
Qed.

Lemma all_digits_ascii s : all_digits s -> all_ascii s.
Proof.
  induction s as [| c t IH]; [exact (fun _ => I) |]. intros [[d Hd] Ht].
  split; [| exact (IH Ht)]. pose proof (digit_code _ _ Hd). lia.
Qed.

Lemma all_ascii_app s1 s2 :
  all_ascii s1 -> all_ascii s2 -> all_ascii (s1 ++ s2).
Proof.
  intros H1 H2. induction s1 as [| c t IH]; [exact H2 |].
  destruct H1 as [Hc Ht]. split; [exact Hc | exact (IH Ht)].
Qed.

(** ** Splitting at the comma *)

Lemma split_digits s : all_digits s -> Wire.split 44 (codes s) = [codes s].
Proof.
  induction s as [| c t IH]; [reflexivity |]. intros [[d Hd] Ht].
  change (codes (String c t)) with (N_of_ascii c :: codes t).
  cbn [Wire.split]. pose proof (digit_code _ _ Hd) as Hc.
  replace (N_of_ascii c =? 44)%N with false by (symmetry; apply N.eqb_neq; lia).
  rewrite (IH Ht). reflexivity.
Qed.

Lemma split_digits_comma s1 s2 :
  all_digits s1 ->
  Wire.split 44 (codes s1 ++ 44%N :: codes s2)
  = codes s1 :: Wire.split 44 (codes s2).
Proof.
  induction s1 as [| c t IH]; [reflexivity |]. intros [[d Hd] Ht].
  change (codes (String c t)) with (N_of_ascii c :: codes t).
  cbn [Wire.split app]. pose proof (digit_code _ _ Hd) as Hc.
  replace (N_of_ascii c =? 44)%N with false by (symmetry; apply N.eqb_neq; lia).
  rewrite (IH Ht). reflexivity.
Qed.

(** ** Round trips *)

Lemma to_uint32_small z : (0 <= z < 2 ^ 32)%Z -> Ns3Client.to_uint32 z = z.
Proof. intros H. unfold Ns3Client.to_uint32. apply Z.mod_small, H. Qed.

Lemma to_uint32_range z : (0 <= Ns3Client.to_uint32 z < 2 ^ 32)%Z.
Proof. unfold Ns3Client.to_uint32. apply Z.mod_pos_bound. lia. Qed.

Lemma parse_request action reward :
  Wire.parse_message (Ns3Client.SendToPythonServer action reward)
  = Return (Ns3Client.to_uint32 action, Ns3Client.to_uint32 reward).
Proof.
  unfold Ns3Client.SendToPythonServer, Wire.parse_message.
  destruct (put_unsigned_digits (Ns3Client.to_uint32 action))
    as (da & Ea & Hda & Va); [apply to_uint32_range |].
  destruct (put_unsigned_digits (Ns3Client.to_uint32 reward))
    as (dr & Er & Hdr & Vr); [apply to_uint32_range |].
  rewrite Ea, Er.
  set (sa := DecimalString.NilEmpty.string_of_uint da).
  set (sr := DecimalString.NilEmpty.string_of_uint dr).
  assert (Ha : all_digits sa) by apply string_of_uint_all_digits.
  assert (Hr : all_digits sr) by apply string_of_uint_all_digits.
  change (sa ++ "," ++ sr)%string with (sa ++ String "," sr)%string.
  rewrite decode_ascii.
  2: { apply all_ascii_app; [apply all_digits_ascii, Ha |].
       split; [reflexivity | apply all_digits_ascii, Hr]. }
  rewrite codes_app.
  change (codes (String "," sr)) with (44%N :: codes sr).
  rewrite split_digits_comma, split_digits by assumption.
  cbn [map]. rewrite !py_int_ascii by (apply all_digits_ascii; assumption).
  unfold sa, sr. rewrite !PyLong_FromString_digits by assumption.
  rewrite Va, Vr. reflexivity.
Qed.

Lemma request_not_empty action reward :
  Ns3Client.SendToPythonServer action reward <> EmptyString.
Proof.
  unfold Ns3Client.SendToPythonServer.
  destruct (Ns3Client.put_unsigned (Ns3Client.to_uint32 action));
    discriminate.
Qed.

(** X9. What the ns-3 client sends, the controller reads back: the
    packet [SendToPythonServer] builds from two [uint32_t] values parses,
    in [handle_client_connection], to exactly that action and reward (and
    it is not the empty read that would end the loop). *)
Theorem X9_request_round_trip action reward :
  (0 <= action < 2 ^ 32)%Z -> (0 <= reward < 2 ^ 32)%Z ->
  Wire.parse_message (Ns3Client.SendToPythonServer action reward)
  = Return (action, reward) /\
  Ns3Client.SendToPythonServer action reward <> EmptyString.
Proof.
  intros Ha Hr. split; [| apply request_not_empty].
  rewrite parse_request, !to_uint32_small by assumption. reflexivity.
Qed.

Lemma X9_witness :
  Wire.parse_message (Ns3Client.SendToPythonServer 7 4294967295)
  = Return (7%Z, 4294967295%Z) /\
  Ns3Client.SendToPythonServer 7 4294967295 <> EmptyString.
Proof. apply (X9_request_round_trip 7 4294967295); lia. Defined.

Lemma next_action_of_str n :
  (0 <= n <= Ns3Client.INT_MAX)%Z ->
  Ns3Client.next_action_of (Wire.str n) = Ns3Client.Value n.
Proof.
  intros Hn. rewrite str_nonnegative by lia.
  destruct (put_unsigned_digits n) as (d & E & Hd & V); [lia |].
  unfold Ns3Client.next_action_of.
  rewrite E, stoi_digits by (rewrite ?V; auto; lia).
  rewrite V, to_uint32_small; [reflexivity |].
  unfold Ns3Client.INT_MAX in Hn. lia.
Qed.

(** X10. What the controller answers, the ns-3 client reads back: for
    action ids of [[0, INT_MAX]], [ReceiveFromPythonServer] fed the
    replies [str(next_action)] recovers exactly those ids and ends without
    an exception. *)
Theorem X10_reply_round_trip actions :
  Forall (fun a => (0 <= a <= Ns3Client.INT_MAX)%Z) actions ->
  Ns3Client.ReceiveFromPythonServer (map Wire.str actions) = (actions, None).
Proof.
  induction actions as [| a t IH]; intros H; [reflexivity |].
  apply Forall_cons_iff in H as [Ha Ht].
  change (map Wire.str (a :: t)) with (Wire.str a :: map Wire.str t).
  cbn [Ns3Client.ReceiveFromPythonServer].
  rewrite (next_action_of_str a Ha), (IH Ht). reflexivity.
Qed.

Lemma X10_witness :
  Ns3Client.ReceiveFromPythonServer (map Wire.str [0; 9; 2147483647]%Z)
  = ([0; 9; 2147483647]%Z, None).
Proof.
  apply (X10_reply_round_trip [0; 9; 2147483647]%Z).
  repeat (apply Forall_cons; [unfold Ns3Client.INT_MAX; lia |]).
  apply Forall_nil.
Defined.

(** ** The handler on arbitrary input *)

Lemma handle_message_step n g rng c data w :
  (forall k, rng k < 1) -> reachable n g (lp_mab w) ->
  (exists w' next,
      (0 <= next < n)%Z /\ reachable n g (lp_mab w') /\
      tick w' = S (tick w) /\
      trace w' = trace w ++ [EvSend (Wire.str next)] /\
      forall rest,
        handle_client_connection rng (Data (String c data) :: rest) w
        = handle_client_connection rng rest w')
  \/ (exists e w',
         reachable n g (lp_mab w') /\ trace w' = trace w /\
         forall rest,
           handle_client_connection rng (Data (String c data) :: rest) w
           = (Raise e, w')).
Proof.
  intros Hrng Hreach.
  destruct (Wire.parse_message (String c data)) as [ar | e] eqn:Hparse.
  2: { right. exists e, w. split; [exact Hreach |]. split; [reflexivity |].
       intros rest. rewrite handle_message.
       unfold bind at 1. unfold lift at 1. rewrite Hparse. reflexivity. }
  destruct (update (fst ar) (IZR (snd ar)) (lp_mab w)) as [[[] | e] s1]
    eqn:Hup.
  2: { right. exists e, (mkWorld s1 (tick w) (trace w)).
       split; [eapply reach_update; eauto |]. split; [reflexivity |].
       intros rest. rewrite handle_message.
       unfold bind at 1. unfold lift at 1. rewrite Hparse.
       unfold bind at 1. unfold with_lp_mab at 1. rewrite Hup. reflexivity. }
  assert (Hreach1 : reachable n g s1) by (eapply reach_update; eauto).
  destruct (reachable_parameters _ _ _ Hreach1) as [En1 _].
  destruct (np_random_choice (num_actions s1) (probabilities s1)
              (rng (tick w))) as [next | e] eqn:Hnext.
  - left.
    exists (mkWorld s1 (S (tick w)) (trace w ++ [EvSend (Wire.str next)])),
      next.
    split; [rewrite <- En1; eapply np_random_choice_range; eauto |].
    split; [exact Hreach1 |]. split; [reflexivity |].
    split; [reflexivity |].
    intros rest. rewrite handle_message.
    unfold bind at 1. unfold lift at 1. rewrite Hparse.
    unfold bind at 1. unfold with_lp_mab at 1. rewrite Hup.
    unfold bind at 1. unfold random_sample at 1.
    unfold bind at 1. unfold with_lp_mab at 1.
    unfold select_action, bind at 1, get, lift, ret. simpl lp_mab.
    simpl tick. rewrite Hnext. reflexivity.
  - right. exists e, (mkWorld s1 (S (tick w)) (trace w)).
    split; [exact Hreach1 |]. split; [reflexivity |].
    intros rest. rewrite handle_message.
    unfold bind at 1. unfold lift at 1. rewrite Hparse.
    unfold bind at 1. unfold with_lp_mab at 1. rewrite Hup.
    unfold bind at 1. unfold random_sample at 1.
    unfold bind at 1. unfold with_lp_mab at 1.
    unfold select_action, bind at 1, get, lift, ret. simpl lp_mab.
    simpl tick. rewrite Hnext. reflexivity.
Qed.

Lemma handle_trace n g rng :
  (forall k, rng k < 1) ->
  forall client_socket w o w',
    reachable n g (lp_mab w) ->
    handle_client_connection rng client_socket w = (o, w') ->
    reachable n g (lp_mab w') /\
    exists actions,
      Forall (fun a => (0 <= a < n)%Z) actions /\
      (length actions <= length client_socket)%nat /\
      trace w' = trace w ++ map EvSend (map Wire.str actions)
                 ++ match o with Return _ => [EvClose] | Raise _ => [] end.
Proof.
  intros Hrng client_socket.
  induction client_socket as [| r rest IH]; intros w o w' Hreach H.
  - rewrite handle_end in H. injection H as <- <-.
    split; [exact Hreach |]. exists []. simpl. auto.
  - destruct r as [[| c data] |].
    + rewrite handle_close in H. injection H as <- <-.
      split; [exact Hreach |]. exists []. simpl.
      repeat split; auto. lia.
    + destruct (handle_message_step n g rng c data w Hrng Hreach)
        as [(w1 & next & Hnext & Hr1 & _ & Htr & Hgo)
           | (e & w1 & Hr1 & Htr & Hstop)].
      * rewrite Hgo in H.
        destruct (IH _ _ _ Hr1 H) as (Hr' & actions & Hin & Hlen & Htrace).
        split; [exact Hr' |]. exists (next :: actions).
        split; [constructor; assumption |]. split; [simpl; lia |].
        rewrite Htrace, Htr, <- app_assoc. reflexivity.
      * rewrite Hstop in H. injection H as <- <-.
        split; [exact Hr1 |]. exists []. simpl.
        rewrite Htr, app_nil_r. repeat split; auto. lia.
    + rewrite handle_recv_fail in H. injection H as <- <-.
      split; [exact Hreach |]. exists []. simpl.
      rewrite app_nil_r. repeat split; auto. lia.
Qed.

Lemma closes_app a b : closes (a ++ b) = (closes a + closes b)%nat.
Proof.
  induction a as [| [d |] t IH]; simpl; auto.
Qed.

Lemma closes_sends l : closes (map EvSend l) = O.
Proof. induction l; simpl; auto. Qed.

Lemma replies_in_range n actions :
  Forall (fun a => (0 <= a < n)%Z) actions ->
  Forall (reply_in_range n) (map EvSend (map Wire.str actions)).
Proof.
  induction 1 as [| a t Ha Ht IH]; simpl; constructor; auto.
  exists a. auto.
Qed.

(** X12. Whatever a connection delivers (well-formed or malformed
    messages, a close, a failure), on a reachable policy with draws below
    one: the policy the handler leaves is again reachable, everything it
    has sent is the decimal id of an arm of [[0, A)], at most one reply
    per [recv], and the socket is closed exactly when the handler
    returns, as the last thing it does; when it raises the socket is left
    open. *)
Theorem X12_handler_replies_and_close n g rng client_socket w o w' :
  (forall k, rng k < 1) -> reachable n g (lp_mab w) ->
  handle_client_connection rng client_socket w = (o, w') ->
  reachable n g (lp_mab w') /\
  exists replies,
    trace w' = trace w ++ map EvSend replies
               ++ match o with Return _ => [EvClose] | Raise _ => [] end /\
    Forall (reply_in_range n) (map EvSend replies) /\
    (length replies <= length client_socket)%nat /\
    closes (skipn (length (trace w)) (trace w'))
    = match o with Return _ => 1%nat | Raise _ => 0%nat end.
Proof.
  intros Hrng Hreach H.
  destruct (handle_trace n g rng Hrng _ _ _ _ Hreach H)
    as (Hr & actions & Hin & Hlen & Htr).
  split; [exact Hr |]. exists (map Wire.str actions).
  split; [exact Htr |].
  split; [apply replies_in_range, Hin |].
  split; [rewrite length_map; exact Hlen |].
  rewrite Htr, skipn_app, Nat.sub_diag, skipn_all, app_nil_l.
  cbn [skipn]. rewrite closes_app, closes_sends.
  destruct o; reflexivity.
Qed.

Lemma X12_witness :
  reachable 3 (1 / 2)
    (lp_mab (closed (mkWorld (updated 0 1 policy3) 1 [EvSend "0"]))) /\
  exists replies,
    trace (closed (mkWorld (updated 0 1 policy3) 1 [EvSend "0"]))
    = trace world3 ++ map EvSend replies
      ++ match @Return unit tt with
         | Return _ => [EvClose]
         | Raise _ => []
         end /\
    Forall (reply_in_range 3) (map EvSend replies) /\
    (length replies <= length [Data "0,1"])%nat /\
    closes (skipn (length (trace world3))
              (trace (closed (mkWorld (updated 0 1 policy3) 1 [EvSend "0"]))))
    = match @Return unit tt with
      | Return _ => 1%nat
      | Raise _ => 0%nat
      end.
Proof.
  apply (X12_handler_replies_and_close 3 (1 / 2) rng_zero
           [Data "0,1"] world3 (Return tt)
           (closed (mkWorld (updated 0 1 policy3) 1 [EvSend "0"]))).
  - intros k. unfold rng_zero. lra.
  - apply reach_init, init_policy3.
  - exact handle_exchange_example.
Defined.

(** ** The accept loop *)

(** X13. The accept loop of [main] keeps the policy reachable across
    connections, whatever they deliver, and only ever sends ids of arms
    of [[0, A)]. When it is through the connections it has closed each of
    them once; when an exception ends it, the connection that raised (and
    those after it) were never closed. *)
Theorem X13_accept_loop_trace n g rng connections :
  (forall k, rng k < 1) ->
  forall w o w',
    reachable n g (lp_mab w) ->
    accept_loop rng connections w = (o, w') ->
    reachable n g (lp_mab w') /\
    exists added,
      trace w' = trace w ++ added /\
      Forall (reply_in_range n) added /\
      match o with
      | Return _ => closes added = length connections
      | Raise _ => (closes added < length connections)%nat
      end.
Proof.
  intros Hrng.
  induction connections as [| c rest IH]; intros w o w' Hreach H.
  - simpl in H. injection H as <- <-. split; [exact Hreach |].
    exists []. rewrite app_nil_r. auto.
  - rewrite accept_loop_cons in H.
    destruct (handle_client_connection rng c w) as [[[] | e] w1] eqn:Hc.
    + destruct (handle_trace n g rng Hrng _ _ _ _ Hreach Hc)
        as (Hr1 & actions & Hin & _ & Htr).
      destruct (IH _ _ _ Hr1 H) as (Hr' & added & Htr' & Hok & Hcl).
      split; [exact Hr' |].
      exists ((map EvSend (map Wire.str actions) ++ [EvClose]) ++ added).
      split; [rewrite Htr', Htr, !app_assoc; reflexivity |].
      split.
      * apply Forall_app. split; [| exact Hok].
        apply Forall_app. split; [apply replies_in_range, Hin |].
        constructor; [exact I | constructor].
      * rewrite !closes_app, closes_sends. simpl.
        destruct o; simpl; lia.
    + injection H as <- <-.
      destruct (handle_trace n g rng Hrng _ _ _ _ Hreach Hc)
        as (Hr1 & actions & Hin & _ & Htr).
      split; [exact Hr1 |].
      exists (map EvSend (map Wire.str actions)).
      split; [rewrite Htr, app_nil_r; reflexivity |].
      split; [apply replies_in_range, Hin |].
      rewrite closes_sends. simpl. lia.
Qed.


Lemma accept_loop_replies n g rng :
  (forall k, rng k < 1) ->
  forall connections w o w',
    reachable n g (lp_mab w) ->
    Forall (reply_in_range n) (trace w) ->
    accept_loop rng connections w = (o, w') ->
    reachable n g (lp_mab w') /\ Forall (reply_in_range n) (trace w').
Proof.
  intros Hrng connections.
  induction connections as [| c rest IH]; intros w o w' Hreach Hok H.
  - simpl in H. injection H as <- <-. auto.
  - rewrite accept_loop_cons in H.
    destruct (handle_client_connection rng c w) as [[[] | e] w1] eqn:Hc;
      destruct (handle_trace n g rng Hrng _ _ _ _ Hreach Hc)
        as (Hr1 & actions & Hin & _ & Htr).
    + apply (IH w1 o w' Hr1); [| exact H]. rewrite Htr.
      apply Forall_app. split; [exact Hok |].
      apply Forall_app. split; [apply replies_in_range, Hin |].
      constructor; [exact I | constructor].
    + injection H as <- <-. split; [exact Hr1 |]. rewrite Htr, app_nil_r.
      apply Forall_app. split; [exact Hok | apply replies_in_range, Hin].
Qed.

Lemma X13_witness :
  reachable 3 (1 / 2)
    (lp_mab (closed (mkWorld (updated 0 1 policy3) 1 [EvSend "0"]))) /\
  exists added,
    trace (closed (mkWorld (updated 0 1 policy3) 1 [EvSend "0"]))
    = trace world3 ++ added /\
    Forall (reply_in_range 3) added /\
    match Return tt with
    | Return _ => closes added = length [[Data "0,1"]]
    | Raise _ => (closes added < length [[Data "0,1"]])%nat
    end.
Proof.
  apply (X13_accept_loop_trace 3 (1 / 2) rng_zero [[Data "0,1"]]
           ltac:(intros k; unfold rng_zero; lra) world3
           (Return tt)
           (closed (mkWorld (updated 0 1 policy3) 1 [EvSend "0"]))).
  - apply reach_init, init_policy3.
  - rewrite accept_loop_cons, handle_exchange_example. reflexivity.
Defined.

(** ** main *)

(** X14. [main] always builds its policy of ten arms, and whatever the
    connections deliver (with draws below one), everything it sends, from
    start to end, is the decimal id of an arm of [[0, 10)]. *)
Theorem X14_main_replies_in_range rng connections :
  (forall k, rng k < 1) ->
  exists o w,
    main rng connections = Return (o, w) /\
    Forall (reply_in_range 10) (trace w).
Proof.
  intros Hrng. unfold main.
  destruct (init 10 (1 / 10)) as [lp | e] eqn:Hinit; [| discriminate].
  destruct (accept_loop rng connections (mkWorld lp 0 [])) as [o w] eqn:Hrun.
  exists o, w. split; [reflexivity |].
  assert (Hreach : reachable 10 (1 / 10) (lp_mab (mkWorld lp 0 [])))
    by (apply reach_init, Hinit).
  destruct (accept_loop_replies 10 (1 / 10) rng Hrng _ _ _ _ Hreach
              (Forall_nil _) Hrun) as (_ & Hok).
  exact Hok.
Qed.

Lemma X14_witness :
  exists o w,
    main rng_zero [[Data "0,1"; Data "3,0"]; [Data "9,2"]] = Return (o, w) /\
    Forall (reply_in_range 10) (trace w).
Proof.
  apply (X14_main_replies_in_range rng_zero
           [[Data "0,1"; Data "3,0"]; [Data "9,2"]]).
  intros k. unfold rng_zero. lra.
Defined.

(** ** Which messages are accepted *)

Lemma split_head sep text : exists h r, Wire.split sep text = h :: r.
Proof.
  destruct text as [| c t]; simpl; [eauto |].
  destruct (c =? sep)%N; [eauto |].
  destruct (Wire.split sep t); eauto.
Qed.

Lemma split_one sep text x :
  Wire.split sep text = [x] <-> x = text /\ ~ In sep text.
Proof.
  revert x. induction text as [| c t IH]; intros x; simpl.
  - split; [intros [= <-]; auto | intros [-> _]; reflexivity].
  - destruct (N.eqb_spec c sep) as [-> | Hne].
    + split; [| tauto]. intros [= _ H].
      destruct (split_head sep t) as (h & r & E). congruence.
    + destruct (Wire.split sep t) as [| h r] eqn:E.
      * destruct (split_head sep t) as (h & r & E'). congruence.
      * split.
        -- intros [= <- ->]. destruct (proj1 (IH h) eq_refl) as [-> Ht].
           split; [reflexivity |]. intros [H | H]; [congruence | tauto].
        -- intros [-> Ht].
           assert (H : h :: r = [t]) by (apply IH; tauto).
           injection H as -> ->. reflexivity.
Qed.

Lemma split_two sep text field1 field2 :
  Wire.split sep text = [field1; field2] <->
  text = field1 ++ sep :: field2 /\ ~ In sep field1 /\ ~ In sep field2.
Proof.
  revert field1. induction text as [| c t IH]; intros field1; simpl.
  - split; [discriminate |]. intros [H _]. destruct field1; discriminate.
  - destruct (N.eqb_spec c sep) as [-> | Hne].
    + split.
      * intros [= <- H]. apply split_one in H as [-> H]. simpl. auto.
      * intros (H & H1 & H2). destruct field1 as [| c1 t1].
        -- simpl in H. injection H as ->.
           rewrite (proj2 (split_one sep field2 field2) (conj eq_refl H2)).
           reflexivity.
        -- simpl in H, H1. injection H as <- _. tauto.
    + destruct (Wire.split sep t) as [| h r] eqn:E.
      * destruct (split_head sep t) as (h & r & E'). congruence.
      * split.
        -- intros [= <- ->]. destruct (proj1 (IH h) eq_refl) as (-> & H1 & H2).
           split; [reflexivity |]. split; [| exact H2].
           intros [H | H]; [congruence | tauto].
        -- intros (H & H1 & H2). destruct field1 as [| c1 t1].
           ++ simpl in H. injection H as -> _. congruence.
           ++ simpl in H, H1. injection H as <- ->.
              assert (H : h :: r = [t1; field2]) by (apply IH; tauto).
              injection H as -> ->. reflexivity.
Qed.

(** X15. The messages the handler accepts: the bytes [data] parse to
    [(action, reward)] exactly when they are the UTF-8 encoding of two
    fields around a single comma, each of which [int] accepts, with
    these values. Bytes that are not UTF-8, no comma, two commas, an
    empty or non-numeric field are all refused. *)
Theorem X15_accepted_messages data action reward :
  Wire.parse_message data = Return (action, reward) <->
  exists field1 field2,
    Wire.decode data = Some (field1 ++ 44%N :: field2) /\
    ~ In 44%N field1 /\ ~ In 44%N field2 /\
    Wire.py_int field1 = Some action /\ Wire.py_int field2 = Some reward.
Proof.
  unfold Wire.parse_message. split.
  - destruct (Wire.decode data) as [text |]; [| discriminate].
    destruct (Wire.split 44 text) as [| f1 [| f2 [| f3 r]]] eqn:E;
      simpl; try discriminate.
    + destruct (Wire.py_int f1); discriminate.
    + destruct (Wire.py_int f1) as [a |] eqn:E1; [| discriminate].
      destruct (Wire.py_int f2) as [b |] eqn:E2; [| discriminate].
      intros [= <- <-]. apply split_two in E as (-> & H1 & H2).
      exists f1, f2. auto.
    + destruct (Wire.py_int f1); [| discriminate].
      destruct (Wire.py_int f2); [| discriminate].
      destruct (Wire.py_int f3); discriminate.
  - intros (f1 & f2 & -> & H1 & H2 & E1 & E2).
    rewrite (proj2 (split_two 44 _ f1 f2)) by auto.
    simpl. rewrite E1, E2. reflexivity.
Qed.

(** * TagBuffer *)

(** ** Bytes of an integer *)

Section ByteArithmetic.

Local Open Scope Z_scope.

Lemma lor_byte q y :
  0 <= q -> 0 <= y < 256 -> Z.lor (Z.shiftl q 8) y = q * 256 + y.
Proof.
  intros Hq Hy. rewrite Z.shiftl_mul_pow2 by lia. change (2 ^ 8) with 256.
  assert (H : Z.land (q * 256) y = 0).
  { apply Z.bits_inj'. intros n Hn. rewrite Z.land_spec, Z.bits_0.
    destruct (Z.lt_ge_cases n 8).
    - replace (q * 256) with (q * 2 ^ 8) by reflexivity.
      rewrite Z.mul_pow2_bits_low by lia. reflexivity.
    - rewrite (Z.bits_above_log2 y n), andb_false_r; auto; try lia.
      destruct (Z.eq_dec y 0) as [-> | Hy0]; [simpl; lia |].
      apply Z.log2_lt_pow2; try lia.
      apply Z.lt_le_trans with (2 ^ 8); [simpl; lia |].
      apply Z.pow_le_mono_r; lia. }
  rewrite <- Z.lxor_lor by exact H. symmetry. apply Z.add_nocarry_lxor, H.
Qed.

Lemma byte_of v k :
  0 <= k -> Z.land (Z.shiftr v (8 * k)) 255 = (v / 2 ^ (8 * k)) mod 256.
Proof.
  intros Hk. rewrite Z.shiftr_div_pow2 by lia.
  change 255 with (Z.ones 8). rewrite Z.land_ones by lia. reflexivity.
Qed.

Lemma shift_in_small w data byte :
  8 <= w -> 0 <= data < 2 ^ (w - 8) -> 0 <= byte < 256 ->
  TagBuffer.shift_in w data byte = data * 256 + byte /\
  0 <= data * 256 + byte < 2 ^ w.
Proof.
  intros Hw Hd Hb.
  assert (Hp : 2 ^ w = 2 ^ (w - 8) * 256).
  { replace w with ((w - 8) + 8) at 1 by lia.
    rewrite Z.pow_add_r by lia. reflexivity. }
  assert (Hrange : 0 <= data * 256 + byte < 2 ^ w) by (rewrite Hp; nia).
  split; [| exact Hrange].
  unfold TagBuffer.shift_in.
  rewrite (Z.mod_small (Z.shiftl data 8)).
  - rewrite lor_byte by lia. apply Z.mod_small, Hrange.
  - rewrite Z.shiftl_mul_pow2 by lia. change (2 ^ 8) with 256.
    rewrite Hp. nia.
Qed.

End ByteArithmetic.

(** ** Arrays of bytes *)

Lemma poke_length i v a : length (TagBuffer.poke i v a) = length a.
Proof.
  revert i; induction a as [| h t IH]; intros [| j]; simpl; auto.
Qed.

Lemma nth_poke_same i v a d :
  (i < length a)%nat -> nth i (TagBuffer.poke i v a) d = v.
Proof.
  revert i; induction a as [| h t IH]; intros [| j]; simpl; intros H;
    try lia; auto.
  apply IH; lia.
Qed.

Lemma nth_poke_other i j v a d :
  i <> j -> nth j (TagBuffer.poke i v a) d = nth j a d.
Proof.
  revert i j; induction a as [| h t IH]; intros [| i] [| j] H; simpl;
    try reflexivity; try congruence.
  apply IH; congruence.
Qed.

Lemma store_length i src a : length (TagBuffer.store i src a) = length a.
Proof.
  revert i a; induction src as [| x r IH]; intros i a; simpl; auto.
  rewrite IH. apply poke_length.
Qed.

Lemma nth_store_other i src a j d :
  (j < i \/ i + length src <= j)%nat ->
  nth j (TagBuffer.store i src a) d = nth j a d.
Proof.
  revert i a; induction src as [| x r IH]; intros i a H; simpl; auto.
  rewrite IH by (simpl in H; lia).
  apply nth_poke_other. simpl in H. lia.
Qed.

Lemma nth_store_in i src a k d :
  (k < length src)%nat -> (i + length src <= length a)%nat ->
  nth (i + k) (TagBuffer.store i src a) d = nth k src d.
Proof.
  revert i a k; induction src as [| x r IH]; intros i a k Hk Ha;
    simpl in *; [lia |].
  destruct k as [| k].
  - rewrite Nat.add_0_r, nth_store_other by lia.
    apply nth_poke_same. lia.
  - replace (i + S k)%nat with (S i + k)%nat by lia.
    apply IH; [lia |]. rewrite poke_length. lia.
Qed.

Lemma firstn_skipn_store i src a :
  (i + length src <= length a)%nat ->
  firstn (length src) (skipn i (TagBuffer.store i src a)) = src.
Proof.
  intros Ha. apply (nth_ext _ _ 0%Z 0%Z).
  - rewrite length_firstn, length_skipn, store_length. lia.
  - intros k Hk.
    rewrite length_firstn, length_skipn, store_length in Hk.
    rewrite nth_firstn.
    replace (k <? length src)%nat with true
      by (symmetry; apply Nat.ltb_lt; lia).
    rewrite nth_skipn. apply nth_store_in; lia.
Qed.

(** ** Writing *)

Lemma WriteU8_run v b :
  TagBuffer.WriteU8 v b
  = if (TagBuffer.m_current b + 1 <=? TagBuffer.m_end b)%nat
    then Some (TagBuffer.mk
                 (TagBuffer.poke (TagBuffer.m_current b) (v mod 2 ^ 8)%Z
                                 (TagBuffer.bytes b))
                 (TagBuffer.m_current b + 1) (TagBuffer.m_end b))
    else None.
Proof. reflexivity. Qed.

(** [Write] of a whole buffer, in closed form. *)
Lemma Write_run buffer b :
  (TagBuffer.m_current b <= TagBuffer.m_end b)%nat ->
  TagBuffer.Write buffer (length buffer) b
  = if (TagBuffer.m_current b + length buffer <=? TagBuffer.m_end b)%nat
    then Some (TagBuffer.mk
                 (TagBuffer.store (TagBuffer.m_current b)
                    (map (fun v => (v mod 2 ^ 8)%Z) buffer)
                    (TagBuffer.bytes b))
                 (TagBuffer.m_current b + length buffer)
                 (TagBuffer.m_end b))
    else None.
Proof.
  revert b. induction buffer as [| x r IH]; intros [a c e] Hce; simpl in *.
  - rewrite Nat.add_0_r.
    destruct (Nat.leb_spec c e); [reflexivity | lia].
  - unfold TagBuffer.WriteU8; simpl.
    destruct (Nat.leb_spec (c + 1) e) as [H1 | H1].
    + rewrite IH by (simpl; lia). simpl.
      destruct (Nat.leb_spec (c + 1 + length r) e),
        (Nat.leb_spec (c + S (length r)) e); try lia; [| reflexivity].
      rewrite Nat.add_1_r. f_equal. f_equal. lia.
    + destruct (Nat.leb_spec (c + S (length r)) e); [lia | reflexivity].
Qed.

Lemma bind_some_r (c : option TagBuffer.t) :
  match c with Some b => Some b | None => None end = c.
Proof. destruct c; reflexivity. Qed.

Lemma WriteU16_as_Write data b :
  TagBuffer.WriteU16 data b
  = TagBuffer.Write (le_bytes 2 (data mod 2 ^ 16)%Z) 2 b.
Proof.
  unfold TagBuffer.WriteU16, le_bytes. cbn [TagBuffer.Write seq map hd tl].
  repeat (destruct (TagBuffer.WriteU8 _ _); [| reflexivity]). reflexivity.
Qed.

Lemma WriteU32_as_Write data b :
  TagBuffer.WriteU32 data b
  = TagBuffer.Write (le_bytes 4 (data mod 2 ^ 32)%Z) 4 b.
Proof.
  unfold TagBuffer.WriteU32, le_bytes. cbn [TagBuffer.Write seq map hd tl].
  repeat (destruct (TagBuffer.WriteU8 _ _); [| reflexivity]). reflexivity.
Qed.

Lemma WriteU64_as_Write data b :
  TagBuffer.WriteU64 data b
  = TagBuffer.Write (le_bytes 8 (data mod 2 ^ 64)%Z) 8 b.
Proof.
  unfold TagBuffer.WriteU64, le_bytes. cbn [TagBuffer.Write seq map hd tl].
  repeat (destruct (TagBuffer.WriteU8 _ _); [| reflexivity]). reflexivity.
Qed.

Lemma le_bytes_length n v : length (le_bytes n v) = n.
Proof. unfold le_bytes. rewrite length_map, length_seq. reflexivity. Qed.

Lemma nth_le_bytes n v k :
  (k < n)%nat ->
  nth k (map (fun x => (x mod 2 ^ 8)%Z) (le_bytes n v)) 0%Z
  = ((v / 2 ^ (8 * Z.of_nat k)) mod 256)%Z.
Proof.
  intros Hk. unfold le_bytes. rewrite map_map.
  rewrite (nth_indep _ 0%Z
             ((fun k => (Z.land (Z.shiftr v (8 * Z.of_nat k)) 255 mod 2 ^ 8)%Z)
                O))
    by (rewrite length_map, length_seq; exact Hk).
  rewrite (map_nth (fun k => (Z.land (Z.shiftr v (8 * Z.of_nat k)) 255
                              mod 2 ^ 8)%Z)).
  rewrite seq_nth by exact Hk. simpl Nat.add.
  rewrite byte_of by lia. change (2 ^ 8)%Z with 256%Z.
  apply Z.mod_mod. lia.
Qed.

(** What a fixed-width write leaves. *)
Lemma Write_le_bytes n v b b' :
  tag_buffer_valid b ->
  TagBuffer.Write (le_bytes n v) n b = Some b' ->
  (TagBuffer.m_current b + n <= TagBuffer.m_end b)%nat /\
  TagBuffer.m_current b' = (TagBuffer.m_current b + n)%nat /\
  TagBuffer.m_end b' = TagBuffer.m_end b /\
  length (TagBuffer.bytes b') = length (TagBuffer.bytes b) /\
  (forall k, (k < n)%nat ->
     nth (TagBuffer.m_current b + k) (TagBuffer.bytes b') 0%Z
     = ((v / 2 ^ (8 * Z.of_nat k)) mod 256)%Z) /\
  (forall j, (j < TagBuffer.m_current b
              \/ TagBuffer.m_current b + n <= j)%nat ->
     nth j (TagBuffer.bytes b') 0%Z = nth j (TagBuffer.bytes b) 0%Z).
Proof.
  intros [Hce Hel] H.
  rewrite <- (le_bytes_length n v) in H at 2.
  rewrite Write_run in H by exact Hce. rewrite le_bytes_length in H.
  destruct (Nat.leb_spec (TagBuffer.m_current b + n) (TagBuffer.m_end b))
    as [Hroom |]; [| discriminate].
  injection H as <-. simpl. split; [exact Hroom |].
  split; [reflexivity |]. split; [reflexivity |].
  split; [apply store_length |]. split.
  - intros k Hk. rewrite nth_store_in.
    + apply nth_le_bytes, Hk.
    + rewrite length_map, le_bytes_length. exact Hk.
    + rewrite length_map, le_bytes_length. lia.
  - intros j Hj. apply nth_store_other.
    rewrite length_map, le_bytes_length. exact Hj.
Qed.

(** ** Reading *)

Lemma ReadU8_run b :
  (TagBuffer.m_current b + 1 <= TagBuffer.m_end b)%nat ->
  TagBuffer.ReadU8 b
  = Some (nth (TagBuffer.m_current b) (TagBuffer.bytes b) 0%Z,
          TagBuffer.mk (TagBuffer.bytes b) (TagBuffer.m_current b + 1)
                       (TagBuffer.m_end b)).
Proof.
  intros H. unfold TagBuffer.ReadU8.
  destruct (Nat.leb_spec (TagBuffer.m_current b + 1) (TagBuffer.m_end b));
    [reflexivity | lia].
Qed.

Ltac read_bytes :=
  repeat (rewrite ReadU8_run by (simpl; lia);
          cbn [fst snd TagBuffer.bytes TagBuffer.m_current TagBuffer.m_end]).

Lemma ReadU16_run a c e :
  (c + 2 <= e)%nat ->
  TagBuffer.ReadU16 (TagBuffer.mk a c e)
  = Some (TagBuffer.shift_in 16 (nth (c + 1) a 0%Z) (nth c a 0%Z),
          TagBuffer.mk a (c + 2) e).
Proof.
  intros H. unfold TagBuffer.ReadU16. read_bytes.
  replace (c + 1 + 1)%nat with (c + 2)%nat by lia. reflexivity.
Qed.

Lemma ReadU32_run a c e :
  (c + 4 <= e)%nat ->
  TagBuffer.ReadU32 (TagBuffer.mk a c e)
  = Some (TagBuffer.shift_in 32
            (TagBuffer.shift_in 32
               (TagBuffer.shift_in 32 (nth (c + 3) a 0%Z) (nth (c + 2) a 0%Z))
               (nth (c + 1) a 0%Z))
            (nth c a 0%Z),
          TagBuffer.mk a (c + 4) e).
Proof.
  intros H. unfold TagBuffer.ReadU32. read_bytes.
  replace (c + 1 + 1)%nat with (c + 2)%nat by lia.
  replace (c + 2 + 1)%nat with (c + 3)%nat by lia.
  replace (c + 3 + 1)%nat with (c + 4)%nat by lia. reflexivity.
Qed.

Lemma ReadU64_run a c e :
  (c + 8 <= e)%nat ->
  TagBuffer.ReadU64 (TagBuffer.mk a c e)
  = Some (TagBuffer.shift_in 64
           (TagBuffer.shift_in 64
            (TagBuffer.shift_in 64
             (TagBuffer.shift_in 64
              (TagBuffer.shift_in 64
               (TagBuffer.shift_in 64
                (TagBuffer.shift_in 64 (nth (c + 7) a 0%Z)
                                       (nth (c + 6) a 0%Z))
                (nth (c + 5) a 0%Z))
               (nth (c + 4) a 0%Z))
              (nth (c + 3) a 0%Z))
             (nth (c + 2) a 0%Z))
            (nth (c + 1) a 0%Z))
           (nth c a 0%Z),
          TagBuffer.mk a (c + 8) e).
Proof.
  intros H. unfold TagBuffer.ReadU64. read_bytes.
  replace (c + 1 + 1)%nat with (c + 2)%nat by lia.
  replace (c + 2 + 1)%nat with (c + 3)%nat by lia.
  replace (c + 3 + 1)%nat with (c + 4)%nat by lia.
  replace (c + 4 + 1)%nat with (c + 5)%nat by lia.
  replace (c + 5 + 1)%nat with (c + 6)%nat by lia.
  replace (c + 6 + 1)%nat with (c + 7)%nat by lia.
  replace (c + 7 + 1)%nat with (c + 8)%nat by lia. reflexivity.
Qed.

(** ** Layout of the fixed-width writes *)

Lemma Write_little_endian n v b :
  tag_buffer_valid b ->
  writes_little_endian n v b (TagBuffer.Write (le_bytes n v) n b).
Proof.
  intros Hv. destruct (TagBuffer.Write (le_bytes n v) n b) as [b' |] eqn:H.
  - apply Write_le_bytes; assumption.
  - destruct Hv as [Hce _].
    rewrite <- (le_bytes_length n v) in H at 2.
    rewrite Write_run in H by exact Hce. rewrite le_bytes_length in H.
    destruct (Nat.leb_spec (TagBuffer.m_current b + n) (TagBuffer.m_end b));
      [discriminate | simpl; lia].
Qed.

(** X16. On a cursor inside its array, [WriteU16], [WriteU32] and
    [WriteU64] fail exactly when fewer than 2, 4 or 8 bytes are left
    before [m_end]; otherwise they store the bytes of the value (taken
    modulo 2^16, 2^32, 2^64) least significant first at the cursor,
    advance the cursor by the width, and change no other byte, nor
    [m_end], nor the size of the array. *)
Theorem X16_fixed_width_writes_little_endian data b :
  tag_buffer_valid b ->
  writes_little_endian 2 (data mod 2 ^ 16) b (TagBuffer.WriteU16 data b) /\
  writes_little_endian 4 (data mod 2 ^ 32) b (TagBuffer.WriteU32 data b) /\
  writes_little_endian 8 (data mod 2 ^ 64) b (TagBuffer.WriteU64 data b).
Proof.
  intros Hv.
  rewrite WriteU16_as_Write, WriteU32_as_Write, WriteU64_as_Write.
  repeat split; apply Write_little_endian, Hv.
Qed.

Lemma X16_witness :
  writes_little_endian 2 (258 mod 2 ^ 16)
    (TagBuffer.TagBuffer [0; 0; 0; 0; 0; 0; 0; 0; 0; 0]%Z 1 9)
    (TagBuffer.WriteU16 258
       (TagBuffer.TagBuffer [0; 0; 0; 0; 0; 0; 0; 0; 0; 0]%Z 1 9)) /\
  writes_little_endian 4 (258 mod 2 ^ 32)
    (TagBuffer.TagBuffer [0; 0; 0; 0; 0; 0; 0; 0; 0; 0]%Z 1 9)
    (TagBuffer.WriteU32 258
       (TagBuffer.TagBuffer [0; 0; 0; 0; 0; 0; 0; 0; 0; 0]%Z 1 9)) /\
  writes_little_endian 8 (258 mod 2 ^ 64)
    (TagBuffer.TagBuffer [0; 0; 0; 0; 0; 0; 0; 0; 0; 0]%Z 1 9)
    (TagBuffer.WriteU64 258
       (TagBuffer.TagBuffer [0; 0; 0; 0; 0; 0; 0; 0; 0; 0]%Z 1 9)).
Proof.
  apply (X16_fixed_width_writes_little_endian 258
           (TagBuffer.TagBuffer [0; 0; 0; 0; 0; 0; 0; 0; 0; 0]%Z 1 9)).
  unfold tag_buffer_valid; simpl; lia.
Defined.

(** ** Round trips *)

Section Recombine.

Local Open Scope Z_scope.

Lemma byte_at_range v k : 0 <= byte_at v k < 256.
Proof. unfold byte_at. apply Z.mod_pos_bound. lia. Qed.

Lemma shift_in_step w data byte hi :
  8 <= w -> 0 <= hi -> hi * 256 <= 2 ^ w ->
  0 <= data < hi -> 0 <= byte < 256 ->
  TagBuffer.shift_in w data byte = data * 256 + byte /\
  0 <= data * 256 + byte < hi * 256.
Proof.
  intros Hw Hhi Hle Hd Hb.
  assert (Hp : 2 ^ w = 2 ^ (w - 8) * 256).
  { replace w with ((w - 8) + 8) at 1 by lia.
    rewrite Z.pow_add_r by lia. reflexivity. }
  destruct (shift_in_small w data byte) as [E _]; [lia | nia | lia |].
  split; [exact E | nia].
Qed.

Lemma recombine16 v :
  0 <= v < 2 ^ 16 ->
  TagBuffer.shift_in 16 (byte_at v 1) (byte_at v 0) = v.
Proof.
  intros Hv.
  pose proof (byte_at_range v 0) as Hb0. pose proof (byte_at_range v 1) as Hb1.
  destruct (shift_in_step 16 (byte_at v 1) (byte_at v 0) 256 ltac:(lia)
              ltac:(lia) ltac:(apply Z.leb_le; reflexivity) ltac:(lia)
              ltac:(lia)) as [-> _].
  unfold byte_at. simpl Z.mul. change (2 ^ 0) with 1.
  change (2 ^ 8) with 256. change (2 ^ 16) with 65536 in Hv.
  Z.div_mod_to_equations. lia.
Qed.

Lemma recombine32 v :
  0 <= v < 2 ^ 32 ->
  TagBuffer.shift_in 32
    (TagBuffer.shift_in 32
       (TagBuffer.shift_in 32 (byte_at v 3) (byte_at v 2)) (byte_at v 1))
    (byte_at v 0) = v.
Proof.
  intros Hv.
  pose proof (byte_at_range v 0) as Hb0. pose proof (byte_at_range v 1) as Hb1.
  pose proof (byte_at_range v 2) as Hb2. pose proof (byte_at_range v 3) as Hb3.
  destruct (shift_in_step 32 (byte_at v 3) (byte_at v 2) 256 ltac:(lia)
              ltac:(lia) ltac:(apply Z.leb_le; reflexivity) ltac:(lia)
              ltac:(lia)) as [-> H2].
  destruct (shift_in_step 32 _ (byte_at v 1) (256 * 256) ltac:(lia) ltac:(lia)
              ltac:(apply Z.leb_le; reflexivity) H2 ltac:(lia)) as [-> H1].
  destruct (shift_in_step 32 _ (byte_at v 0) (256 * 256 * 256) ltac:(lia) ltac:(lia)
              ltac:(apply Z.leb_le; reflexivity) H1 ltac:(lia)) as [-> _].
  unfold byte_at. simpl Z.mul. change (2 ^ 0) with 1.
  change (2 ^ 8) with 256. change (2 ^ 16) with 65536.
  change (2 ^ 24) with 16777216. change (2 ^ 32) with 4294967296 in Hv.
  Z.div_mod_to_equations. lia.
Qed.

Lemma recombine64 v :
  0 <= v < 2 ^ 64 ->
  TagBuffer.shift_in 64
   (TagBuffer.shift_in 64
    (TagBuffer.shift_in 64
     (TagBuffer.shift_in 64
      (TagBuffer.shift_in 64
       (TagBuffer.shift_in 64
        (TagBuffer.shift_in 64 (byte_at v 7) (byte_at v 6)) (byte_at v 5))
       (byte_at v 4))
      (byte_at v 3))
     (byte_at v 2))
    (byte_at v 1))
   (byte_at v 0) = v.
Proof.
  intros Hv.
  pose proof (byte_at_range v 0) as Hb0. pose proof (byte_at_range v 1) as Hb1.
  pose proof (byte_at_range v 2) as Hb2. pose proof (byte_at_range v 3) as Hb3.
  pose proof (byte_at_range v 4) as Hb4. pose proof (byte_at_range v 5) as Hb5.
  pose proof (byte_at_range v 6) as Hb6. pose proof (byte_at_range v 7) as Hb7.
  destruct (shift_in_step 64 (byte_at v 7) (byte_at v 6) 256 ltac:(lia)
              ltac:(lia) ltac:(apply Z.leb_le; reflexivity) ltac:(lia)
              ltac:(lia)) as [-> H6].
  destruct (shift_in_step 64 _ (byte_at v 5) (256 * 256) ltac:(lia) ltac:(lia)
              ltac:(apply Z.leb_le; reflexivity) H6 ltac:(lia)) as [-> H5].
  destruct (shift_in_step 64 _ (byte_at v 4) (256 * 256 * 256) ltac:(lia) ltac:(lia)
              ltac:(apply Z.leb_le; reflexivity) H5 ltac:(lia)) as [-> H4].
  destruct (shift_in_step 64 _ (byte_at v 3) (256 * 256 * 256 * 256) ltac:(lia) ltac:(lia)
              ltac:(apply Z.leb_le; reflexivity) H4 ltac:(lia)) as [-> H3].
  destruct (shift_in_step 64 _ (byte_at v 2) (256 * 256 * 256 * 256 * 256) ltac:(lia) ltac:(lia)
              ltac:(apply Z.leb_le; reflexivity) H3 ltac:(lia)) as [-> H2].
  destruct (shift_in_step 64 _ (byte_at v 1) (256 * 256 * 256 * 256 * 256 * 256) ltac:(lia) ltac:(lia)
              ltac:(apply Z.leb_le; reflexivity) H2 ltac:(lia)) as [-> H1].
  destruct (shift_in_step 64 _ (byte_at v 0) (256 * 256 * 256 * 256 * 256 * 256 * 256) ltac:(lia) ltac:(lia)
              ltac:(apply Z.leb_le; reflexivity) H1 ltac:(lia)) as [-> _].
  clear - Hv. unfold byte_at. simpl Z.mul. change (2 ^ 0) with 1.
  change (2 ^ 8) with 256. change (2 ^ 16) with 65536.
  change (2 ^ 24) with 16777216. change (2 ^ 32) with 4294967296.
  change (2 ^ 40) with 1099511627776.
  change (2 ^ 48) with 281474976710656.
  change (2 ^ 56) with 72057594037927936.
  change (2 ^ 64) with 18446744073709551616 in Hv.
  Z.div_mod_to_equations. lia.
Qed.

End Recombine.

Lemma written_byte n v b b' k :
  tag_buffer_valid b ->
  TagBuffer.Write (le_bytes n v) n b = Some b' -> (k < n)%nat ->
  nth (TagBuffer.m_current b + k) (TagBuffer.bytes b') 0%Z
  = byte_at v (Z.of_nat k).
Proof.
  intros Hv H Hk.
  destruct (Write_le_bytes n v b b' Hv H) as (_ & _ & _ & _ & Hin & _).
  apply Hin, Hk.
Qed.

Ltac written_bytes Hv H :=
  repeat match goal with
         | |- context [nth (?c + ?k) _ 0%Z] =>
             let E := fresh "E" in
             pose proof (written_byte _ _ _ _ k Hv H ltac:(lia)) as E;
             cbn [TagBuffer.bytes] in E; rewrite E; clear E
         end;
  cbn [TagBuffer.bytes Z.of_nat Pos.of_succ_nat Pos.succ].

(** X17. What is written is read back: on a cursor inside its array,
    after a successful [WriteU8], [WriteU16], [WriteU32] or [WriteU64] of
    a value, a [TagBuffer] opened over the same bytes at the writer's
    starting point reads, with the matching [Read], that value (modulo
    2^8, 2^16, 2^32, 2^64) and ends exactly where the writer ended. *)
Theorem X17_write_read_round_trip v b :
  tag_buffer_valid b ->
  (forall b', TagBuffer.WriteU8 v b = Some b' ->
     TagBuffer.ReadU8 (reader_of b b') = Some ((v mod 2 ^ 8)%Z, b')) /\
  (forall b', TagBuffer.WriteU16 v b = Some b' ->
     TagBuffer.ReadU16 (reader_of b b') = Some ((v mod 2 ^ 16)%Z, b')) /\
  (forall b', TagBuffer.WriteU32 v b = Some b' ->
     TagBuffer.ReadU32 (reader_of b b') = Some ((v mod 2 ^ 32)%Z, b')) /\
  (forall b', TagBuffer.WriteU64 v b = Some b' ->
     TagBuffer.ReadU64 (reader_of b b') = Some ((v mod 2 ^ 64)%Z, b')).
Proof.
  intros Hv. split; [| split; [| split]]; intros b'.
  - unfold TagBuffer.WriteU8.
    destruct (Nat.leb_spec (TagBuffer.m_current b + 1) (TagBuffer.m_end b))
      as [Hroom |]; [| discriminate].
    intros [= <-]. unfold reader_of, TagBuffer.TagBuffer; simpl.
    rewrite ReadU8_run by (simpl; lia). simpl.
    rewrite nth_poke_same by (destruct Hv; lia). reflexivity.
  - intros H. rewrite WriteU16_as_Write in H.
    destruct (Write_le_bytes _ _ _ _ Hv H) as (Hroom & Hc & He & _).
    destruct b' as [a' c' e']. unfold reader_of, TagBuffer.TagBuffer.
    cbn [TagBuffer.m_current TagBuffer.m_end TagBuffer.bytes] in Hc, He |- *.
    subst c' e'.
    rewrite ReadU16_run by lia.
    rewrite <- (Nat.add_0_r (TagBuffer.m_current b)) at 2.
    written_bytes Hv H.
    rewrite recombine16 by (apply Z.mod_pos_bound; lia). reflexivity.
  - intros H. rewrite WriteU32_as_Write in H.
    destruct (Write_le_bytes _ _ _ _ Hv H) as (Hroom & Hc & He & _).
    destruct b' as [a' c' e']. unfold reader_of, TagBuffer.TagBuffer.
    cbn [TagBuffer.m_current TagBuffer.m_end TagBuffer.bytes] in Hc, He |- *.
    subst c' e'.
    rewrite ReadU32_run by lia.
    rewrite <- (Nat.add_0_r (TagBuffer.m_current b)) at 4.
    written_bytes Hv H.
    rewrite recombine32 by (apply Z.mod_pos_bound; lia). reflexivity.
  - intros H. rewrite WriteU64_as_Write in H.
    destruct (Write_le_bytes _ _ _ _ Hv H) as (Hroom & Hc & He & _).
    destruct b' as [a' c' e']. unfold reader_of, TagBuffer.TagBuffer.
    cbn [TagBuffer.m_current TagBuffer.m_end TagBuffer.bytes] in Hc, He |- *.
    subst c' e'.
    rewrite ReadU64_run by lia.
    rewrite <- (Nat.add_0_r (TagBuffer.m_current b)) at 8.
    written_bytes Hv H.
    rewrite recombine64 by (apply Z.mod_pos_bound; lia). reflexivity.
Qed.

Lemma X17_witness :
  TagBuffer.ReadU8
    (reader_of (TagBuffer.TagBuffer [0; 0; 0; 0; 0; 0; 0; 0; 0; 0]%Z 1 9)
               (TagBuffer.TagBuffer [0; 120; 0; 0; 0; 0; 0; 0; 0; 0]%Z 2 9))
  = Some ((305419896 mod 2 ^ 8)%Z,
          TagBuffer.TagBuffer [0; 120; 0; 0; 0; 0; 0; 0; 0; 0]%Z 2 9) /\
  TagBuffer.ReadU16
    (reader_of (TagBuffer.TagBuffer [0; 0; 0; 0; 0; 0; 0; 0; 0; 0]%Z 1 9)
               (TagBuffer.TagBuffer [0; 120; 86; 0; 0; 0; 0; 0; 0; 0]%Z 3 9))
  = Some ((305419896 mod 2 ^ 16)%Z,
          TagBuffer.TagBuffer [0; 120; 86; 0; 0; 0; 0; 0; 0; 0]%Z 3 9) /\
  TagBuffer.ReadU32
    (reader_of (TagBuffer.TagBuffer [0; 0; 0; 0; 0; 0; 0; 0; 0; 0]%Z 1 9)
               (TagBuffer.TagBuffer [0; 120; 86; 52; 18; 0; 0; 0; 0; 0]%Z 5 9))
  = Some ((305419896 mod 2 ^ 32)%Z,
          TagBuffer.TagBuffer [0; 120; 86; 52; 18; 0; 0; 0; 0; 0]%Z 5 9) /\
  TagBuffer.ReadU64
    (reader_of (TagBuffer.TagBuffer [0; 0; 0; 0; 0; 0; 0; 0; 0; 0]%Z 1 9)
               (TagBuffer.TagBuffer [0; 120; 86; 52; 18; 0; 0; 0; 0; 0]%Z 9 9))
  = Some ((305419896 mod 2 ^ 64)%Z,
          TagBuffer.TagBuffer [0; 120; 86; 52; 18; 0; 0; 0; 0; 0]%Z 9 9).
Proof.
  assert (Hv : tag_buffer_valid
                 (TagBuffer.TagBuffer [0; 0; 0; 0; 0; 0; 0; 0; 0; 0]%Z 1 9))
    by (unfold tag_buffer_valid; simpl; lia).
  destruct (X17_write_read_round_trip 305419896 _ Hv) as (H8 & H16 & H32 & H64).
  split; [apply H8; reflexivity |].
  split; [apply H16; reflexivity |].
  split; [apply H32; reflexivity | apply H64; reflexivity].
Defined.

(** ** Bulk writes and reads *)

Lemma Write_firstn buffer size b :
  (size <= length buffer)%nat ->
  TagBuffer.Write buffer size b
  = TagBuffer.Write (firstn size buffer) (length (firstn size buffer)) b.
Proof.
  revert buffer b. induction size as [| n IH]; intros buffer b Hs.
  - reflexivity.
  - destruct buffer as [| x r]; [simpl in Hs; lia |].
    cbn [firstn length TagBuffer.Write hd tl].
    destruct (TagBuffer.WriteU8 x b) as [b1 |]; [| reflexivity].
    apply IH. simpl in Hs. lia.
Qed.

Lemma Read_run size b :
  TagBuffer.Read size b
  = if (TagBuffer.m_current b + size <=? TagBuffer.m_end b)%nat
    then Some (firstn size (skipn (TagBuffer.m_current b) (TagBuffer.bytes b)),
               TagBuffer.mk (TagBuffer.bytes b) (TagBuffer.m_current b + size)
                            (TagBuffer.m_end b))
    else None.
Proof. reflexivity. Qed.

(** X18. [Write(buffer, size)] on a cursor inside its array, for
    [size] bytes that [buffer] has: it fails exactly when fewer than
    [size] bytes are left before [m_end]; otherwise the cursor advances
    by [size], no byte outside the window written changes, and
    [Read(size)] from the writer's starting point gives back the first
    [size] bytes of [buffer] and ends where the writer ended. *)
Theorem X18_bulk_write_read_round_trip buffer size b :
  tag_buffer_valid b -> (size <= length buffer)%nat ->
  match TagBuffer.Write buffer size b with
  | None => (TagBuffer.m_end b < TagBuffer.m_current b + size)%nat
  | Some b' =>
      TagBuffer.m_current b' = (TagBuffer.m_current b + size)%nat /\
      TagBuffer.m_end b' = TagBuffer.m_end b /\
      (forall j, (j < TagBuffer.m_current b
                  \/ TagBuffer.m_current b + size <= j)%nat ->
         nth j (TagBuffer.bytes b') 0%Z = nth j (TagBuffer.bytes b) 0%Z) /\
      TagBuffer.Read size (reader_of b b')
      = Some (map (fun v => (v mod 2 ^ 8)%Z) (firstn size buffer), b')
  end.
Proof.
  intros [Hce Hel] Hs.
  assert (Hlen : length (firstn size buffer) = size)
    by (rewrite length_firstn; lia).
  rewrite Write_firstn by exact Hs.
  rewrite Write_run, Hlen by exact Hce.
  destruct (Nat.leb_spec (TagBuffer.m_current b + size) (TagBuffer.m_end b))
    as [Hroom | Hroom]; [| exact Hroom].
  cbn [TagBuffer.m_current TagBuffer.m_end TagBuffer.bytes].
  split; [reflexivity |]. split; [reflexivity |]. split.
  - intros j Hj. apply nth_store_other. rewrite length_map, Hlen. exact Hj.
  - unfold reader_of, TagBuffer.TagBuffer. rewrite Read_run.
    cbn [TagBuffer.m_current TagBuffer.m_end TagBuffer.bytes].
    destruct (Nat.leb_spec (TagBuffer.m_current b + size) (TagBuffer.m_end b));
      [| lia].
    f_equal. f_equal.
    rewrite <- Hlen at 1. rewrite <- (length_map (fun v => (v mod 2 ^ 8)%Z)).
    apply firstn_skipn_store. rewrite length_map, Hlen. lia.
Qed.

Lemma X18_witness :
  match TagBuffer.Write [1; 2; 3; 300]%Z 3
          (TagBuffer.TagBuffer [9; 9; 9; 9; 9]%Z 1 5) with
  | None => (5 < 1 + 3)%nat
  | Some b' =>
      TagBuffer.m_current b' = (1 + 3)%nat /\
      TagBuffer.m_end b' = 5%nat /\
      (forall j, (j < 1 \/ 1 + 3 <= j)%nat ->
         nth j (TagBuffer.bytes b') 0%Z = nth j [9; 9; 9; 9; 9]%Z 0%Z) /\
      TagBuffer.Read 3
        (reader_of (TagBuffer.TagBuffer [9; 9; 9; 9; 9]%Z 1 5) b')
      = Some (map (fun v => (v mod 2 ^ 8)%Z) (firstn 3 [1; 2; 3; 300]%Z), b')
  end.
Proof.
  apply (X18_bulk_write_read_round_trip [1; 2; 3; 300]%Z 3
           (TagBuffer.TagBuffer [9; 9; 9; 9; 9]%Z 1 5)).
  - unfold tag_buffer_valid; simpl; lia.
  - simpl; lia.
Defined.

(** ** CopyFrom *)

(** X19. [CopyFrom(o)], both cursors being inside their arrays: it fails
    exactly when [o] has more bytes left than there is room before
    [m_end]; otherwise it advances the cursor by the number of bytes [o]
    had left, changes no byte outside that window, and [Read] from the
    starting point gives back exactly the bytes [o] had left. *)
Theorem X19_copy_from o b :
  tag_buffer_valid o -> tag_buffer_valid b ->
  let size := (TagBuffer.m_end o - TagBuffer.m_current o)%nat in
  match TagBuffer.CopyFrom o b with
  | None => (TagBuffer.m_end b - TagBuffer.m_current b < size)%nat
  | Some b' =>
      TagBuffer.m_current b' = (TagBuffer.m_current b + size)%nat /\
      TagBuffer.m_end b' = TagBuffer.m_end b /\
      (forall j, (j < TagBuffer.m_current b
                  \/ TagBuffer.m_current b + size <= j)%nat ->
         nth j (TagBuffer.bytes b') 0%Z = nth j (TagBuffer.bytes b) 0%Z) /\
      TagBuffer.Read size (reader_of b b')
      = Some (firstn size (skipn (TagBuffer.m_current o) (TagBuffer.bytes o)),
              b')
  end.
Proof.
  intros [Hoce Hoel] [Hce Hel] size. unfold TagBuffer.CopyFrom. fold size.
  destruct (Nat.leb_spec (TagBuffer.m_current o) (TagBuffer.m_end o));
    [| lia].
  destruct (Nat.leb_spec (TagBuffer.m_current b) (TagBuffer.m_end b));
    [| lia].
  cbn [negb].
  destruct (Nat.leb_spec size (TagBuffer.m_end b - TagBuffer.m_current b))
    as [Hroom | Hroom]; cbn [negb]; [| exact Hroom].
  set (src := firstn size (skipn (TagBuffer.m_current o) (TagBuffer.bytes o))).
  assert (Hlen : length src = size).
  { unfold src. rewrite length_firstn, length_skipn. unfold size. lia. }
  cbn [TagBuffer.m_current TagBuffer.m_end TagBuffer.bytes].
  split; [reflexivity |]. split; [reflexivity |]. split.
  - intros j Hj. apply nth_store_other. rewrite Hlen. exact Hj.
  - unfold reader_of, TagBuffer.TagBuffer. rewrite Read_run.
    cbn [TagBuffer.m_current TagBuffer.m_end TagBuffer.bytes].
    destruct (Nat.leb_spec (TagBuffer.m_current b + size) (TagBuffer.m_end b));
      [| lia].
    f_equal. f_equal. rewrite <- Hlen at 1.
    apply firstn_skipn_store. rewrite Hlen. lia.
Qed.

Lemma X19_witness :
  let size := (3 - 1)%nat in
  match TagBuffer.CopyFrom (TagBuffer.TagBuffer [7; 8; 9; 10]%Z 1 3)
          (TagBuffer.TagBuffer [0; 0; 0; 0; 0]%Z 2 5) with
  | None => (5 - 2 < size)%nat
  | Some b' =>
      TagBuffer.m_current b' = (2 + size)%nat /\
      TagBuffer.m_end b' = 5%nat /\
      (forall j, (j < 2 \/ 2 + size <= j)%nat ->
         nth j (TagBuffer.bytes b') 0%Z = nth j [0; 0; 0; 0; 0]%Z 0%Z) /\
      TagBuffer.Read size
        (reader_of (TagBuffer.TagBuffer [0; 0; 0; 0; 0]%Z 2 5) b')
      = Some (firstn size (skipn 1 [7; 8; 9; 10]%Z), b')
  end.
Proof.
  apply (X19_copy_from (TagBuffer.TagBuffer [7; 8; 9; 10]%Z 1 3)
           (TagBuffer.TagBuffer [0; 0; 0; 0; 0]%Z 2 5));
    unfold tag_buffer_valid; simpl; lia.
Defined.

(** ** Fields in sequence *)

Lemma store_app i l1 l2 a :
  TagBuffer.store i (l1 ++ l2) a
  = TagBuffer.store (i + length l1) l2 (TagBuffer.store i l1 a).
Proof.
  revert i a. induction l1 as [| x r IH]; intros i a; simpl.
  - rewrite Nat.add_0_r. reflexivity.
  - rewrite IH. f_equal. lia.
Qed.

Lemma firstn_add {A} n1 n2 (l : list A) :
  firstn (n1 + n2) l = firstn n1 l ++ firstn n2 (skipn n1 l).
Proof.
  revert l. induction n1 as [| n IH]; intros l; [reflexivity |].
  destruct l as [| x r]; simpl.
  - rewrite firstn_nil. reflexivity.
  - rewrite IH. reflexivity.
Qed.

(** X20. Fields go out and come back in sequence: on a cursor inside
    its array, writing [buf1] and then [buf2] is writing their
    concatenation in one call (it fails in the same cases and leaves the
    same buffer), and a [Read] of [n1 + n2] bytes gives the bytes of a
    [Read] of [n1] followed by a [Read] of [n2], ending at the same
    place. *)
Theorem X20_writes_and_reads_compose buf1 buf2 n1 n2 b :
  tag_buffer_valid b ->
  TagBuffer.Write (buf1 ++ buf2) (length buf1 + length buf2) b
  = match TagBuffer.Write buf1 (length buf1) b with
    | Some b1 => TagBuffer.Write buf2 (length buf2) b1
    | None => None
    end /\
  TagBuffer.Read (n1 + n2) b
  = match TagBuffer.Read n1 b with
    | Some (x1, b1) =>
        match TagBuffer.Read n2 b1 with
        | Some (x2, b2) => Some (x1 ++ x2, b2)
        | None => None
        end
    | None => None
    end.
Proof.
  intros [Hce Hel]. split.
  - rewrite <- length_app. rewrite !Write_run by exact Hce.
    rewrite length_app.
    destruct (Nat.leb_spec (TagBuffer.m_current b + length buf1)
                (TagBuffer.m_end b)) as [H1 | H1].
    + rewrite Write_run by (simpl; lia).
      cbn [TagBuffer.m_current TagBuffer.m_end TagBuffer.bytes].
      destruct (Nat.leb_spec
                  (TagBuffer.m_current b + (length buf1 + length buf2))
                  (TagBuffer.m_end b)),
        (Nat.leb_spec (TagBuffer.m_current b + length buf1 + length buf2)
           (TagBuffer.m_end b)); try lia; [| reflexivity].
      rewrite map_app, store_app, length_map. f_equal. f_equal. lia.
    + destruct (Nat.leb_spec
                  (TagBuffer.m_current b + (length buf1 + length buf2))
                  (TagBuffer.m_end b)); [lia | reflexivity].
  - rewrite !Read_run.
    destruct (Nat.leb_spec (TagBuffer.m_current b + n1) (TagBuffer.m_end b))
      as [H1 | H1].
    + rewrite Read_run.
      cbn [TagBuffer.m_current TagBuffer.m_end TagBuffer.bytes].
      destruct (Nat.leb_spec (TagBuffer.m_current b + (n1 + n2))
                  (TagBuffer.m_end b)),
        (Nat.leb_spec (TagBuffer.m_current b + n1 + n2) (TagBuffer.m_end b));
        try lia; [| reflexivity].
      rewrite firstn_add, skipn_skipn.
      replace (n1 + TagBuffer.m_current b)%nat
        with (TagBuffer.m_current b + n1)%nat by lia.
      f_equal. f_equal. f_equal. lia.
    + destruct (Nat.leb_spec (TagBuffer.m_current b + (n1 + n2))
                  (TagBuffer.m_end b)); [lia | reflexivity].
Qed.

Lemma X20_witness :
  TagBuffer.Write ([1; 2] ++ [3])%Z (length [1; 2]%Z + length [3]%Z)
    (TagBuffer.TagBuffer [0; 0; 0; 0]%Z 0 4)
  = match TagBuffer.Write [1; 2]%Z (length [1; 2]%Z)
            (TagBuffer.TagBuffer [0; 0; 0; 0]%Z 0 4) with
    | Some b1 => TagBuffer.Write [3]%Z (length [3]%Z) b1
    | None => None
    end /\
  TagBuffer.Read (2 + 1) (TagBuffer.TagBuffer [0; 0; 0; 0]%Z 0 4)
  = match TagBuffer.Read 2 (TagBuffer.TagBuffer [0; 0; 0; 0]%Z 0 4) with
    | Some (x1, b1) =>
        match TagBuffer.Read 1 b1 with
        | Some (x2, b2) => Some (x1 ++ x2, b2)
        | None => None
        end
    | None => None
    end.
Proof.
  apply (X20_writes_and_reads_compose [1; 2]%Z [3]%Z 2 1
           (TagBuffer.TagBuffer [0; 0; 0; 0]%Z 0 4)).
  unfold tag_buffer_valid; simpl; lia.
Defined.

(** ** TrimAtEnd *)

(** X21. [TrimAtEnd(trim)] on a cursor inside its array fails exactly
    when [trim] exceeds the room left; otherwise it moves only [m_end],
    back by [trim], and from then on a [Write] of a whole buffer succeeds
    exactly when the buffer fits in the room so reduced. *)
Theorem X21_trim_at_end trim buffer b :
  tag_buffer_valid b ->
  match TagBuffer.TrimAtEnd trim b with
  | None => (TagBuffer.m_end b < TagBuffer.m_current b + trim)%nat
  | Some b' =>
      TagBuffer.bytes b' = TagBuffer.bytes b /\
      TagBuffer.m_current b' = TagBuffer.m_current b /\
      TagBuffer.m_end b' = (TagBuffer.m_end b - trim)%nat /\
      tag_buffer_valid b' /\
      (TagBuffer.Write buffer (length buffer) b' <> None <->
       (TagBuffer.m_current b + length buffer + trim
        <= TagBuffer.m_end b)%nat)
  end.
Proof.
  intros [Hce Hel]. unfold TagBuffer.TrimAtEnd.
  destruct (Z.leb_spec (Z.of_nat (TagBuffer.m_current b))
              (Z.of_nat (TagBuffer.m_end b) - Z.of_nat trim)) as [H | H];
    [| lia].
  split; [reflexivity |]. split; [reflexivity |]. split; [reflexivity |].
  split; [unfold tag_buffer_valid; simpl; lia |].
  rewrite Write_run by (simpl; lia).
  cbn [TagBuffer.m_current TagBuffer.m_end TagBuffer.bytes].
  destruct (Nat.leb_spec (TagBuffer.m_current b + length buffer)
              (TagBuffer.m_end b - trim)); split; intros H'; try lia;
    congruence.
Qed.

Lemma X21_witness :
  match TagBuffer.TrimAtEnd 2 (TagBuffer.TagBuffer [0; 0; 0; 0; 0]%Z 1 5) with
  | None => (5 < 1 + 2)%nat
  | Some b' =>
      TagBuffer.bytes b' = [0; 0; 0; 0; 0]%Z /\
      TagBuffer.m_current b' = 1%nat /\
      TagBuffer.m_end b' = (5 - 2)%nat /\
      tag_buffer_valid b' /\
      (TagBuffer.Write [1; 2; 3]%Z (length [1; 2; 3]%Z) b' <> None <->
       (1 + length [1; 2; 3]%Z + 2 <= 5)%nat)
  end.
Proof.
  apply (X21_trim_at_end 2 [1; 2; 3]%Z
           (TagBuffer.TagBuffer [0; 0; 0; 0; 0]%Z 1 5)).
  unfold tag_buffer_valid; simpl; lia.
Defined.
